(** * Slope Finder: the result pipeline and the search controller of [App]

    A shallow embedding of the client-side logic of the Slope Finder
    front end: the filter and sort pipeline ([filteredAndSortedResorts]
    with its helpers [isGoodWeather], [hasEnoughLiftsOpen], [getPistesKm]),
    the asynchronous loader [loadResorts] with the two service functions
    it awaits ([fetchResorts], [geocodeLocation]), the handlers that
    start it ([handleSearch], [handleLoadMore]) and the controls of the
    page that call them (the search button of [InputSection], the
    load-more button and the observer of [lastResortElementRef]).
    Around the list it covers the toggles of [FilterSortModal], the
    icons of [WeatherIcon], the badge, the icons and the duration text
    of [ResortCard], and the place suggestions of [InputSection] with
    [searchLocations].

    Conventions.
    - A JavaScript string is the list of its UTF-16 code units.
    - A JavaScript number is an exact rational or one of Infinity,
      -Infinity, NaN.  Arithmetic is exact: the rounding of IEEE doubles
      is not modelled, and neither is the sign of zero.
    - React state is a record; a setter is a function on that record.
      A handler runs in the closure of a render, that is with the state
      of that render, while its updates apply to the state of the
      moment.
    - An [async] function is a term of a small free monad whose nodes are
      the state updates, the console and alert outputs and the awaited
      HTTP exchanges; the awaited answer is supplied by the environment,
      in any order.
    - The page is rendered after every event; what happens between an
      update and the render that follows it is not modelled. *)

From Stdlib Require Import ZArith QArith Qround Lqa List Bool Lia Ascii String.
From stdpp Require Import base option list gmap sorting.
Import ListNotations.

Local Open Scope N_scope.

(** ** Strings *)

Module Js.

Definition jsstring : Type := list N.

(** The code units of an ASCII literal. *)
Definition lit (s : string) : jsstring :=
  map N_of_ascii (list_ascii_of_string s).
#[global] Arguments lit : simpl never.

(** [\d] *)
Definition is_digit (c : N) : bool := (48 <=? c) && (c <=? 57).

(** [\s]: WhiteSpace and LineTerminator code units of ECMAScript. *)
Definition is_space (c : N) : bool :=
  (c =? 9) || (c =? 10) || (c =? 11) || (c =? 12) || (c =? 13) || (c =? 32)
  || (c =? 160) || (c =? 5760) || ((8192 <=? c) && (c <=? 8202))
  || (c =? 8232) || (c =? 8233) || (c =? 8239) || (c =? 8287)
  || (c =? 12288) || (c =? 65279).

Definition is_char (x c : N) : bool := c =? x.

Definition slash : N := 47.
Definition dot : N := 46.

(** Truthiness of a string: only the empty string is falsy. *)
Definition truthy (s : jsstring) : bool :=
  match s with [] => false | _ :: _ => true end.

Definition str_eqb (a b : jsstring) : bool := bool_decide (a = b).

(** ** Numbers *)

Inductive jsnum : Type :=
| Fin (q : Q)
| PosInf
| NegInf
| NaN.

Definition Qltb (x y : Q) : bool := negb (Qle_bool y x).

Definition num_sub (a b : jsnum) : jsnum :=
  match a, b with
  | NaN, _ | _, NaN => NaN
  | Fin x, Fin y => Fin (x - y)
  | Fin _, PosInf => NegInf
  | Fin _, NegInf => PosInf
  | PosInf, PosInf => NaN
  | PosInf, _ => PosInf
  | NegInf, NegInf => NaN
  | NegInf, _ => NegInf
  end.

Definition num_div (a b : jsnum) : jsnum :=
  match a, b with
  | NaN, _ | _, NaN => NaN
  | Fin x, Fin y =>
      if Qeq_bool y 0 then
        if Qeq_bool x 0 then NaN
        else if Qltb 0 x then PosInf else NegInf
      else Fin (x / y)
  | Fin _, _ => Fin 0
  | PosInf, Fin y => if Qltb y 0 then NegInf else PosInf
  | NegInf, Fin y => if Qltb y 0 then PosInf else NegInf
  | _, _ => NaN
  end.

(** [a < b]; every comparison with NaN is false. *)
Definition num_lt (a b : jsnum) : bool :=
  match a, b with
  | NaN, _ | _, NaN => false
  | Fin x, Fin y => Qltb x y
  | NegInf, NegInf => false
  | NegInf, _ => true
  | _, PosInf => match a with PosInf => false | _ => true end
  | _, _ => false
  end.

Definition num_gt (a b : jsnum) : bool := num_lt b a.

(** [a <= b] *)
Definition num_le (a b : jsnum) : bool :=
  match a, b with
  | NaN, _ | _, NaN => false
  | Fin x, Fin y => Qle_bool x y
  | NegInf, _ => true
  | _, PosInf => true
  | _, _ => false
  end.


(** ** Decimal numerals *)

Definition digit_val (c : N) : N := c - 48.

(** Value of a run of decimal digits, most significant first. *)
Definition digits_val (ds : jsstring) : N :=
  fold_left (fun acc c => 10 * acc + digit_val c) ds 0.

Fixpoint span (p : N -> bool) (s : jsstring) : jsstring * jsstring :=
  match s with
  | [] => ([], [])
  | c :: s' =>
      if p c then let '(a, b) := span p s' in (c :: a, b) else ([], s)
  end.

(** [parseInt] on the strings the callers pass, which start with a
    decimal digit: the longest prefix of digits read in base 10.  A
    string that does not start with a digit gives NaN here (white space,
    signs and the [0x] prefix, which [parseInt] also accepts, never reach
    it from a [\d+] capture). *)
Definition parseInt (s : jsstring) : jsnum :=
  match fst (span is_digit s) with
  | [] => NaN
  | ds => Fin (inject_Z (Z.of_N (digits_val ds)))
  end.

(** [parseFloat] on numerals of the shape [-?digits(.digits)?]: an
    optional sign, the longest run of digits and, when a dot and at least
    one more digit follow, the fraction.  Exponents, a leading dot, white
    space and the word Infinity are not modelled; a string that has no
    digit after the optional sign gives NaN. *)
Definition parseFloat_unsigned (s : jsstring) : jsnum :=
  match span is_digit s with
  | ([], _) => NaN
  | (ip, rest) =>
      let i := inject_Z (Z.of_N (digits_val ip)) in
      match rest with
      | c :: rest' =>
          if c =? dot then
            match fst (span is_digit rest') with
            | [] => Fin i
            | fp =>
                Fin (i + inject_Z (Z.of_N (digits_val fp))
                         / inject_Z (10 ^ Z.of_nat (length fp)))
            end
          else Fin i
      | [] => Fin i
      end
  end.

Definition num_neg (a : jsnum) : jsnum :=
  match a with
  | Fin q => Fin (- q)
  | PosInf => NegInf
  | NegInf => PosInf
  | NaN => NaN
  end.

Definition parseFloat (s : jsstring) : jsnum :=
  match s with
  | c :: s' =>
      if c =? 45 then num_neg (parseFloat_unsigned s')
      else if c =? 43 then parseFloat_unsigned s'
      else parseFloat_unsigned s
  | [] => NaN
  end.

(** ** Regular expressions

    A backtracking matcher for the fragment the two patterns of [App]
    use: character classes, concatenation, the greedy quantifiers [*],
    [+] and [?], and numbered capture groups.  The matcher is written
    with a continuation, which is asked whether the rest of the pattern
    matches the rest of the input; a quantifier tries one more iteration
    first and falls back to the continuation. *)

Inductive regex : Type :=
| Chr (p : N -> bool)
| Cat (r1 r2 : regex)
| Star (r : regex)
| Opt (r : regex)
| Cap (i : nat) (r : regex).

Definition Plus (r : regex) : regex := Cat r (Star r).

(** The groups captured so far; key 0 is the whole match. *)
Abbreviation captures := (gmap nat jsstring).

(** The part of [s] that was consumed to reach its suffix [s1]. *)
Definition consumed (s s1 : jsstring) : jsstring :=
  take (length s - length s1) s.

Fixpoint rmatch (r : regex) (s : jsstring) (c : captures)
    (k : jsstring -> captures -> option captures) : option captures :=
  match r with
  | Chr p =>
      match s with
      | x :: s' => if p x then k s' c else None
      | [] => None
      end
  | Cat r1 r2 => rmatch r1 s c (fun s1 c1 => rmatch r2 s1 c1 k)
  | Opt r1 =>
      match rmatch r1 s c k with
      | Some m => Some m
      | None => k s c
      end
  | Cap i r1 => rmatch r1 s c (fun s1 c1 => k s1 (<[i := consumed s s1]> c1))
  | Star r1 =>
      (fix loop (n : nat) (s : jsstring) (c : captures) : option captures :=
         match n with
         | O => k s c
         | S n' =>
             match
               rmatch r1 s c
                 (fun s1 c1 =>
                    if (length s1 <? length s)%nat then loop n' s1 c1
                    else None)
             with
             | Some m => Some m
             | None => k s c
             end
         end) (length s) s c
  end.

(** [RegExp.prototype.exec] for a pattern without flags: the match that
    starts leftmost. *)
Fixpoint regex_exec (r : regex) (s : jsstring) : option captures :=
  match rmatch r s ∅ (fun s1 c1 => Some (<[O := consumed s s1]> c1)) with
  | Some m => Some m
  | None =>
      match s with
      | [] => None
      | _ :: s' => regex_exec r s'
      end
  end.

(** [String.prototype.match] with such a pattern. *)
Definition str_match (s : jsstring) (r : regex) : option captures :=
  regex_exec r s.

End Js.

(** ** The data model (types.ts) *)

Export Js.

Record WeatherPeriod : Type := {
  time : jsstring;
  temperature_celsius : Q;
  precipitation_mm : Q;
  snowfall_cm : Q;
  cloud_cover_percent : Q;
  visibility_m : Q
}.

Record WeatherData : Type := {
  snowfall_prev_24h_cm : Q;
  morning : WeatherPeriod;
  midday : WeatherPeriod;
  afternoon : WeatherPeriod
}.

(** The two strings the filters read may be null in the data the server
    sends (the code guards them with [?.] and [!]); [None] is null or
    an absent key. *)
Record SnowReport : Type := {
  pistes_km : option jsstring;
  lifts : option jsstring;
  snow_depth_cm : jsstring;
  updated_on : jsstring
}.

Record ResortLocation : Type := {
  lat : jsnum;
  lng : jsnum
}.

(** The link and image fields of [Resort], which only the card
    component renders, are left out.  The three fields the comparator
    reads through [??] may be null or undefined: [None]. *)
Record Resort : Type := {
  id : jsstring;
  name : jsstring;
  location : ResortLocation;
  elevation : jsstring;
  air_distance_km : Q;
  distance_km : option Q;
  duration_driving_minutes : option Q;
  duration_transit_minutes : option Q;
  snow_report : option SnowReport;
  weather : WeatherData
}.

Record ResortsResponse : Type := {
  resp_page : nat;
  page_size : nat;
  total_resorts : nat;
  has_more : bool;
  resp_resorts : list Resort
}.

(** FilterSortModal.tsx *)
Inductive SortType : Type := proximity | driving | transit.

Record Filters : Type := {
  goodWeather : bool;
  freshSnow : bool;
  liftsOpen : bool;
  minPistes : bool
}.

(** The filters of the first render: all off. *)
Definition no_filters : Filters :=
  {| goodWeather := false; freshSnow := false; liftsOpen := false;
     minPistes := false |}.

(** ** The result pipeline *)

(** [/(\d+)\s*\/\s*(\d+)/] *)
Definition lifts_re : regex :=
  Cat (Cap 1 (Plus (Chr is_digit)))
    (Cat (Star (Chr is_space))
       (Cat (Chr (is_char slash))
          (Cat (Star (Chr is_space))
             (Cap 2 (Plus (Chr is_digit)))))).

(** [/(\d+(?:\.\d+)?)/] *)
Definition pistes_re : regex :=
  Cap 1 (Cat (Plus (Chr is_digit))
           (Opt (Cat (Chr (is_char dot)) (Plus (Chr is_digit))))).

(** [match[i]] of a successful match. *)
Definition group (m : captures) (i : nat) : jsstring := default [] (m !! i).

Definition isGoodWeather (resort : Resort) : bool :=
  let periods :=
    [morning (weather resort); midday (weather resort);
     afternoon (weather resort)] in
  forallb
    (fun p =>
       Qle_bool (cloud_cover_percent p) 75
       && Qeq_bool (snowfall_cm p) 0
       && Qeq_bool (precipitation_mm p) 0)
    periods.

(** [resort.snow_report?.lifts] and [resort.snow_report?.pistes_km]. *)
Definition report_lifts (resort : Resort) : option jsstring :=
  match snow_report resort with
  | Some rep => lifts rep
  | None => None
  end.

Definition report_pistes_km (resort : Resort) : option jsstring :=
  match snow_report resort with
  | Some rep => pistes_km rep
  | None => None
  end.

(** [!x] for a value that is a string, null or undefined. *)
Definition falsy (x : option jsstring) : bool :=
  match x with
  | Some s => negb (truthy s)
  | None => true
  end.

Definition hasEnoughLiftsOpen (resort : Resort) : bool :=
  if falsy (report_lifts resort) then false
  else
    match str_match (default [] (report_lifts resort)) lifts_re with
    | None => false
    | Some m =>
        let open := group m 1 in
        let total := group m 2 in
        let ratio := num_div (parseInt open) (parseInt total) in
        num_gt ratio (Fin (85 # 100))
    end.

Definition getPistesKm (resort : Resort) : jsnum :=
  if falsy (report_pistes_km resort) then Fin 0
  else
    match str_match (default [] (report_pistes_km resort)) pistes_re with
    | Some m => parseFloat (group m 1)
    | None => Fin 0
    end.

(** The predicate passed to [resorts.filter]. *)
Definition keeps (filters : Filters) (resort : Resort) : bool :=
  if goodWeather filters && negb (isGoodWeather resort) then false
  else if freshSnow filters
          && Qle_bool (snowfall_prev_24h_cm (weather resort)) 0 then false
  else if liftsOpen filters && negb (hasEnoughLiftsOpen resort) then false
  else if minPistes filters && num_lt (getPistesKm resort) (Fin 20) then false
  else true.

(** [x ?? Infinity] *)
Definition or_infinity (x : option Q) : jsnum :=
  match x with
  | Some q => Fin q
  | None => PosInf
  end.

(** The value the comparator computes for one side.  The [default]
    branch of its [switch] has no counterpart: a [SortType] is one of
    the three cases. *)
Definition sortValue (sortType : SortType) (a : Resort) : jsnum :=
  match sortType with
  | proximity => or_infinity (distance_km a)
  | driving => or_infinity (duration_driving_minutes a)
  | transit => or_infinity (duration_transit_minutes a)
  end.

(** The comparator passed to [sort]: [valA - valB]. *)
Definition compareResorts (sortType : SortType) (a b : Resort) : jsnum :=
  num_sub (sortValue sortType a) (sortValue sortType b).

(** [Array.prototype.sort] with a comparator.  The language fixes the
    outcome for a consistent comparator: the elements in ascending
    order, elements that compare equal (a result of 0 or NaN) in their
    original order.  Insertion from the right computes that outcome:
    an element moves behind exactly the elements it is greater than. *)
Section ArraySort.
Context {A : Type} (cmp : A -> A -> jsnum).

(** The comparator puts [x] behind [y]: [cmp x y > 0]. *)
Definition after (x y : A) : bool := num_gt (cmp x y) (Fin 0).

Fixpoint sort_insert (x : A) (l : list A) : list A :=
  match l with
  | [] => [x]
  | y :: l' => if after x y then y :: sort_insert x l' else x :: l
  end.

Definition array_sort (l : list A) : list A := foldr sort_insert [] l.
End ArraySort.

(** The body of the [useMemo]: filter, then sort. *)
Definition filteredAndSortedResorts
    (resorts : list Resort) (sortType : SortType) (filters : Filters)
    : list Resort :=
  let filtered := List.filter (keeps filters) resorts in
  array_sort (compareResorts sortType) filtered.

(** ** Arrays in the store

    [resorts] is an array that React state refers to; [filter] builds a
    new array and [sort] reorders the array it is called on.  To see
    which array the pipeline writes, arrays live in a store and are
    passed by reference. *)

Abbreviation store := (gmap nat (list Resort)).

(** [a.filter(p)]: a fresh array. *)
Definition array_filter_ref (p : Resort -> bool) (a : nat) (h : store)
    : option (nat * store) :=
  match h !! a with
  | Some l => let b := fresh (dom h) in Some (b, <[b := List.filter p l]> h)
  | None => None
  end.

(** [a.sort(cmp)]: sorts [a] in place and returns [a]. *)
Definition array_sort_ref (cmp : Resort -> Resort -> jsnum) (a : nat)
    (h : store) : option (nat * store) :=
  match h !! a with
  | Some l => Some (a, <[a := array_sort cmp l]> h)
  | None => None
  end.

(** The body of the [useMemo] on references. *)
Definition filteredAndSortedResorts_ref
    (resorts : nat) (sortType : SortType) (filters : Filters) (h : store)
    : option (nat * store) :=
  match array_filter_ref (keeps filters) resorts h with
  | Some (filtered, h1) =>
      array_sort_ref (compareResorts sortType) filtered h1
  | None => None
  end.

(** * The search controller *)

(** ** React state of [App] *)

Inductive LocationStatus : Type := idle | locating | success | error.

Record AppState : Type := {
  userLocation : option ResortLocation;
  locationInput : jsstring;
  isUsingGPS : bool;
  locationStatus : LocationStatus;
  sortType : SortType;
  filters : Filters;
  showFilterModal : bool;
  date : jsstring;
  resorts : list Resort;
  page : nat;
  hasMore : bool;
  loading : bool;
  searchPerformed : bool;
  totalResorts : nat;
  shouldScrollToResults : bool
}.

(** The state of the first render ([getToday] is the parameter). *)
Definition initial_state (today : jsstring) : AppState :=
  {| userLocation := None; locationInput := []; isUsingGPS := false;
     locationStatus := idle; sortType := proximity; filters := no_filters;
     showFilterModal := false; date := today; resorts := []; page := 1;
     hasMore := false; loading := false; searchPerformed := false;
     totalResorts := 0; shouldScrollToResults := false |}.

(** The setters of [useState]. *)
Definition setUserLocation (v : option ResortLocation) (s : AppState) : AppState :=
  {| userLocation := v; locationInput := locationInput s;
     isUsingGPS := isUsingGPS s; locationStatus := locationStatus s;
     sortType := sortType s; filters := filters s;
     showFilterModal := showFilterModal s; date := date s;
     resorts := resorts s; page := page s; hasMore := hasMore s;
     loading := loading s; searchPerformed := searchPerformed s;
     totalResorts := totalResorts s;
     shouldScrollToResults := shouldScrollToResults s |}.

Definition setLocationInput (v : jsstring) (s : AppState) : AppState :=
  {| userLocation := userLocation s; locationInput := v;
     isUsingGPS := isUsingGPS s; locationStatus := locationStatus s;
     sortType := sortType s; filters := filters s;
     showFilterModal := showFilterModal s; date := date s;
     resorts := resorts s; page := page s; hasMore := hasMore s;
     loading := loading s; searchPerformed := searchPerformed s;
     totalResorts := totalResorts s;
     shouldScrollToResults := shouldScrollToResults s |}.

Definition setIsUsingGPS (v : bool) (s : AppState) : AppState :=
  {| userLocation := userLocation s; locationInput := locationInput s;
     isUsingGPS := v; locationStatus := locationStatus s;
     sortType := sortType s; filters := filters s;
     showFilterModal := showFilterModal s; date := date s;
     resorts := resorts s; page := page s; hasMore := hasMore s;
     loading := loading s; searchPerformed := searchPerformed s;
     totalResorts := totalResorts s;
     shouldScrollToResults := shouldScrollToResults s |}.

Definition setLocationStatus (v : LocationStatus) (s : AppState) : AppState :=
  {| userLocation := userLocation s; locationInput := locationInput s;
     isUsingGPS := isUsingGPS s; locationStatus := v;
     sortType := sortType s; filters := filters s;
     showFilterModal := showFilterModal s; date := date s;
     resorts := resorts s; page := page s; hasMore := hasMore s;
     loading := loading s; searchPerformed := searchPerformed s;
     totalResorts := totalResorts s;
     shouldScrollToResults := shouldScrollToResults s |}.

Definition setSortType (v : SortType) (s : AppState) : AppState :=
  {| userLocation := userLocation s; locationInput := locationInput s;
     isUsingGPS := isUsingGPS s; locationStatus := locationStatus s;
     sortType := v; filters := filters s;
     showFilterModal := showFilterModal s; date := date s;
     resorts := resorts s; page := page s; hasMore := hasMore s;
     loading := loading s; searchPerformed := searchPerformed s;
     totalResorts := totalResorts s;
     shouldScrollToResults := shouldScrollToResults s |}.

Definition setFilters (v : Filters) (s : AppState) : AppState :=
  {| userLocation := userLocation s; locationInput := locationInput s;
     isUsingGPS := isUsingGPS s; locationStatus := locationStatus s;
     sortType := sortType s; filters := v;
     showFilterModal := showFilterModal s; date := date s;
     resorts := resorts s; page := page s; hasMore := hasMore s;
     loading := loading s; searchPerformed := searchPerformed s;
     totalResorts := totalResorts s;
     shouldScrollToResults := shouldScrollToResults s |}.

Definition setDate (v : jsstring) (s : AppState) : AppState :=
  {| userLocation := userLocation s; locationInput := locationInput s;
     isUsingGPS := isUsingGPS s; locationStatus := locationStatus s;
     sortType := sortType s; filters := filters s;
     showFilterModal := showFilterModal s; date := v;
     resorts := resorts s; page := page s; hasMore := hasMore s;
     loading := loading s; searchPerformed := searchPerformed s;
     totalResorts := totalResorts s;
     shouldScrollToResults := shouldScrollToResults s |}.

(** [setResorts] is called with an updater function of the previous
    value. *)
Definition setResorts (f : list Resort -> list Resort) (s : AppState) : AppState :=
  {| userLocation := userLocation s; locationInput := locationInput s;
     isUsingGPS := isUsingGPS s; locationStatus := locationStatus s;
     sortType := sortType s; filters := filters s;
     showFilterModal := showFilterModal s; date := date s;
     resorts := f (resorts s); page := page s; hasMore := hasMore s;
     loading := loading s; searchPerformed := searchPerformed s;
     totalResorts := totalResorts s;
     shouldScrollToResults := shouldScrollToResults s |}.

Definition setPage (v : nat) (s : AppState) : AppState :=
  {| userLocation := userLocation s; locationInput := locationInput s;
     isUsingGPS := isUsingGPS s; locationStatus := locationStatus s;
     sortType := sortType s; filters := filters s;
     showFilterModal := showFilterModal s; date := date s;
     resorts := resorts s; page := v; hasMore := hasMore s;
     loading := loading s; searchPerformed := searchPerformed s;
     totalResorts := totalResorts s;
     shouldScrollToResults := shouldScrollToResults s |}.

Definition setHasMore (v : bool) (s : AppState) : AppState :=
  {| userLocation := userLocation s; locationInput := locationInput s;
     isUsingGPS := isUsingGPS s; locationStatus := locationStatus s;
     sortType := sortType s; filters := filters s;
     showFilterModal := showFilterModal s; date := date s;
     resorts := resorts s; page := page s; hasMore := v;
     loading := loading s; searchPerformed := searchPerformed s;
     totalResorts := totalResorts s;
     shouldScrollToResults := shouldScrollToResults s |}.

Definition setLoading (v : bool) (s : AppState) : AppState :=
  {| userLocation := userLocation s; locationInput := locationInput s;
     isUsingGPS := isUsingGPS s; locationStatus := locationStatus s;
     sortType := sortType s; filters := filters s;
     showFilterModal := showFilterModal s; date := date s;
     resorts := resorts s; page := page s; hasMore := hasMore s;
     loading := v; searchPerformed := searchPerformed s;
     totalResorts := totalResorts s;
     shouldScrollToResults := shouldScrollToResults s |}.

Definition setSearchPerformed (v : bool) (s : AppState) : AppState :=
  {| userLocation := userLocation s; locationInput := locationInput s;
     isUsingGPS := isUsingGPS s; locationStatus := locationStatus s;
     sortType := sortType s; filters := filters s;
     showFilterModal := showFilterModal s; date := date s;
     resorts := resorts s; page := page s; hasMore := hasMore s;
     loading := loading s; searchPerformed := v;
     totalResorts := totalResorts s;
     shouldScrollToResults := shouldScrollToResults s |}.

Definition setTotalResorts (v : nat) (s : AppState) : AppState :=
  {| userLocation := userLocation s; locationInput := locationInput s;
     isUsingGPS := isUsingGPS s; locationStatus := locationStatus s;
     sortType := sortType s; filters := filters s;
     showFilterModal := showFilterModal s; date := date s;
     resorts := resorts s; page := page s; hasMore := hasMore s;
     loading := loading s; searchPerformed := searchPerformed s;
     totalResorts := v;
     shouldScrollToResults := shouldScrollToResults s |}.

Definition setShouldScrollToResults (v : bool) (s : AppState) : AppState :=
  {| userLocation := userLocation s; locationInput := locationInput s;
     isUsingGPS := isUsingGPS s; locationStatus := locationStatus s;
     sortType := sortType s; filters := filters s;
     showFilterModal := showFilterModal s; date := date s;
     resorts := resorts s; page := page s; hasMore := hasMore s;
     loading := loading s; searchPerformed := searchPerformed s;
     totalResorts := totalResorts s;
     shouldScrollToResults := v |}.

(** ** Asynchronous functions *)

(** Values that are thrown. *)
Inductive JsError : Type :=
| TypeError (message : jsstring)
| SyntaxError (message : jsstring)
| Error (message : jsstring).

(** The query of [fetchResorts] (the parameters of the URL). *)
Record SearchParams : Type := {
  req_lat : jsnum;
  req_lng : jsnum;
  req_date : jsstring;
  req_page : nat;
  req_pageSize : nat
}.

(** One entry of the geocoding service's answer. *)
Record GeoHit : Type := {
  display_name : jsstring;
  hit_lat : jsstring;
  hit_lon : jsstring
}.

(** What [fetch] followed by [response.json()] gives: [fetch] rejects
    when the network fails; otherwise there is a response, whose body
    parses as JSON of the expected shape ([Some]) or makes [json()]
    reject ([None]). *)
Record HttpResponse (T : Type) : Type := {
  ok : bool;
  statusText : jsstring;
  body : option T
}.
Arguments ok {T}.
Arguments statusText {T}.
Arguments body {T}.

Inductive HttpResult (T : Type) : Type :=
| Rejected (e : JsError)
| Responded (r : HttpResponse T).
Arguments Rejected {T}.
Arguments Responded {T}.

(** A computation that updates React state, writes to the console or
    shows an alert, awaits HTTP exchanges, and returns or throws. *)
Inductive Async (A : Type) : Type :=
| Ret (a : A)
| Throw (e : JsError)
| Update (f : AppState -> AppState) (k : Async A)
| Alert (message : jsstring) (k : Async A)
| ConsoleError (message : jsstring) (e : JsError) (k : Async A)
| AwaitResorts (req : SearchParams)
    (k : HttpResult ResortsResponse -> Async A)
| AwaitGeocode (query : jsstring)
    (k : HttpResult (list GeoHit) -> Async A).
Arguments Ret {A}.
Arguments Throw {A}.
Arguments Update {A}.
Arguments Alert {A}.
Arguments ConsoleError {A}.
Arguments AwaitResorts {A}.
Arguments AwaitGeocode {A}.

Fixpoint bind {A B : Type} (m : Async A) (f : A -> Async B) : Async B :=
  match m with
  | Ret a => f a
  | Throw e => Throw e
  | Update g k => Update g (bind k f)
  | Alert msg k => Alert msg (bind k f)
  | ConsoleError msg e k => ConsoleError msg e (bind k f)
  | AwaitResorts req k => AwaitResorts req (fun r => bind (k r) f)
  | AwaitGeocode q k => AwaitGeocode q (fun r => bind (k r) f)
  end.

(** [try { m } catch (error) { h error }] *)
Fixpoint try_catch {A : Type} (m : Async A) (h : JsError -> Async A)
    : Async A :=
  match m with
  | Ret a => Ret a
  | Throw e => h e
  | Update g k => Update g (try_catch k h)
  | Alert msg k => Alert msg (try_catch k h)
  | ConsoleError msg e k => ConsoleError msg e (try_catch k h)
  | AwaitResorts req k => AwaitResorts req (fun r => try_catch (k r) h)
  | AwaitGeocode q k => AwaitGeocode q (fun r => try_catch (k r) h)
  end.

(** [try { m } finally { fin }]: [fin] runs on return and on throw. *)
Fixpoint try_finally {A : Type} (m : Async A) (fin : Async unit) : Async A :=
  match m with
  | Ret a => bind fin (fun _ => Ret a)
  | Throw e => bind fin (fun _ => Throw e)
  | Update g k => Update g (try_finally k fin)
  | Alert msg k => Alert msg (try_finally k fin)
  | ConsoleError msg e k => ConsoleError msg e (try_finally k fin)
  | AwaitResorts req k => AwaitResorts req (fun r => try_finally (k r) fin)
  | AwaitGeocode q k => AwaitGeocode q (fun r => try_finally (k r) fin)
  end.

Definition set_state (f : AppState -> AppState) : Async unit :=
  Update f (Ret tt).
Definition alert (message : jsstring) : Async unit := Alert message (Ret tt).
Definition console_error (message : jsstring) (e : JsError) : Async unit :=
  ConsoleError message e (Ret tt).

(** Sequencing is written [x ← m; k] and [m;; k]. *)
#[export] Instance async_bind : MBind Async := fun A B f m => bind m f.
#[export] Instance async_ret : MRet Async := @Ret.

(** ** services/api.ts *)

Definition fetchResorts (lat lng : jsnum) (date : jsstring) (page : nat)
    (pageSize : nat) : Async ResortsResponse :=
  let url :=
    {| req_lat := lat; req_lng := lng; req_date := date; req_page := page;
       req_pageSize := pageSize |} in
  try_catch
    (AwaitResorts url
       (fun result =>
          match result with
          | Rejected e => Throw e
          | Responded response =>
              if negb (ok response) then
                Throw (Error (lit "API Error: " ++ statusText response))
              else
                match body response with
                | Some data => Ret data
                | None => Throw (SyntaxError (lit "Unexpected token"))
                end
          end))
    (fun error =>
       console_error (lit "Failed to fetch resort data:") error;;
       Throw error).

(** The default of the parameter [pageSize]. *)
Definition default_pageSize : nat := 15.

Definition geocodeLocation (query : jsstring) : Async (option ResortLocation) :=
  try_catch
    (AwaitGeocode query
       (fun result =>
          match result with
          | Rejected e => Throw e
          | Responded response =>
              match body response with
              | Some data =>
                  match data with
                  | hit :: _ =>
                      Ret (Some {| lat := parseFloat (hit_lat hit);
                                   lng := parseFloat (hit_lon hit) |})
                  | [] => Ret None
                  end
              | None => Throw (SyntaxError (lit "Unexpected token"))
              end
          end))
    (fun error =>
       console_error (lit "Geocoding error:") error;;
       Ret None).

(** ** [loadResorts]

    [cl] is the state of the render whose closure runs: the function
    reads [userLocation], [isUsingGPS], [locationInput], [page] and
    [date] from it, whatever the state has become when it resumes. *)

Definition current_location_label : jsstring := lit "Current Location".

(** [locationInput && locationInput !== "Current Location"] *)
Definition typed_text (cl : AppState) : bool :=
  truthy (locationInput cl)
  && negb (str_eqb (locationInput cl) current_location_label).

(** Lines 183 to 190: the fetch and what is done with the page. *)
Definition loadResorts_page (cl : AppState) (isNewSearch : bool)
    (targetLocation : ResortLocation) : Async unit :=
  let pageToFetch := if isNewSearch then 1%nat else (page cl + 1)%nat in
  data ← fetchResorts (lat targetLocation) (lng targetLocation) (date cl)
           pageToFetch default_pageSize;
  set_state
    (setResorts
       (fun prev =>
          if isNewSearch then resp_resorts data
          else prev ++ resp_resorts data));;
  set_state (setPage pageToFetch);;
  set_state (setHasMore (has_more data));;
  set_state (setTotalResorts (total_resorts data));;
  set_state (setSearchPerformed true).

(** Lines 166 to 181, then the fetch. *)
Definition loadResorts_fallback (cl : AppState) (isNewSearch : bool)
    (targetLocation : option ResortLocation) : Async unit :=
  match targetLocation with
  | Some target => loadResorts_page cl isNewSearch target
  | None =>
      if typed_text cl && negb (isUsingGPS cl) then
        geocoded ← geocodeLocation (locationInput cl);
        match geocoded with
        | Some g =>
            set_state (setUserLocation (Some g));;
            loadResorts_page cl isNewSearch g
        | None => set_state (setLoading false)
        end
      else set_state (setLoading false)
  end.

(** Lines 146 to 164, then the rest of the [try] block. *)
Definition loadResorts_try (cl : AppState) (isNewSearch : bool)
    (targetLocation : option ResortLocation) : Async unit :=
  if negb (isUsingGPS cl) && typed_text cl then
    match targetLocation with
    | None =>
        geocoded ← geocodeLocation (locationInput cl);
        match geocoded with
        | Some g =>
            set_state (setUserLocation (Some g));;
            loadResorts_fallback cl isNewSearch (Some g)
        | None =>
            alert (lit "Could not find location: " ++ locationInput cl);;
            set_state (setLoading false)
        end
    | Some _ => loadResorts_fallback cl isNewSearch targetLocation
    end
  else loadResorts_fallback cl isNewSearch targetLocation.

Definition loadResorts (cl : AppState) (isNewSearch : bool) : Async unit :=
  let targetLocation := userLocation cl in
  set_state (setLoading true);;
  try_finally
    (try_catch
       (loadResorts_try cl isNewSearch targetLocation)
       (fun error => console_error (lit "Error loading resorts") error))
    (set_state (setLoading false)).

(** ** The event loop *)

(** A suspended call: the exchange it awaits and what it does with the
    answer. *)
Inductive Pending : Type :=
| PendingResorts (req : SearchParams)
    (k : HttpResult ResortsResponse -> Async unit)
| PendingGeocode (query : jsstring)
    (k : HttpResult (list GeoHit) -> Async unit).

(** What the outside sees. *)
Inductive Output : Type :=
| Alerted (message : jsstring)
| Logged (message : jsstring) (e : JsError)
| RequestedResorts (req : SearchParams)
| RequestedGeocode (query : jsstring)
| UnhandledRejection (e : JsError).

Record World : Type := {
  state : AppState;
  pending : list Pending;
  trace : list Output
}.

Definition with_state (f : AppState -> AppState) (w : World) : World :=
  {| state := f (state w); pending := pending w; trace := trace w |}.

Definition emit (o : Output) (w : World) : World :=
  {| state := state w; pending := pending w; trace := trace w ++ [o] |}.

Definition suspend (p : Pending) (w : World) : World :=
  {| state := state w; pending := pending w ++ [p]; trace := trace w |}.

(** Runs a call up to its first [await], or to its end. *)
Fixpoint run (m : Async unit) (w : World) : World :=
  match m with
  | Ret _ => w
  | Throw e => emit (UnhandledRejection e) w
  | Update f k => run k (with_state f w)
  | Alert msg k => run k (emit (Alerted msg) w)
  | ConsoleError msg e k => run k (emit (Logged msg e) w)
  | AwaitResorts req k =>
      suspend (PendingResorts req k) (emit (RequestedResorts req) w)
  | AwaitGeocode q k =>
      suspend (PendingGeocode q k) (emit (RequestedGeocode q) w)
  end.

Inductive Answer : Type :=
| ResortsAnswer (r : HttpResult ResortsResponse)
| GeocodeAnswer (r : HttpResult (list GeoHit)).

Definition resume (p : Pending) (a : Answer) : option (Async unit) :=
  match p, a with
  | PendingResorts _ k, ResortsAnswer r => Some (k r)
  | PendingGeocode _ k, GeocodeAnswer r => Some (k r)
  | _, _ => None
  end.

(** The answer to the [i]-th outstanding exchange arrives. *)
Definition arrive (i : nat) (a : Answer) (w : World) : option World :=
  match pending w !! i with
  | Some p =>
      match resume p a with
      | Some m =>
          Some (run m {| state := state w; pending := delete i (pending w);
                         trace := trace w |})
      | None => None
      end
  | None => None
  end.

(** The world of a page that has done nothing yet. *)
Definition start_world (s : AppState) : World :=
  {| state := s; pending := []; trace := [] |}.

(** ** The handlers *)

Definition handleSearch (w : World) : World :=
  run (set_state (setShouldScrollToResults true) ;; loadResorts (state w) true) w.

(** [handleLoadMore] of the render with state [cl]. *)
Definition handleLoadMore (cl : AppState) (w : World) : World :=
  run (loadResorts cl false) w.

(** ** The other handlers of [App] and [InputSection] *)

(** [handleLocationSelect] *)
Definition handleLocationSelect (location : ResortLocation) (s : AppState)
    : AppState :=
  setLocationStatus idle (setIsUsingGPS false (setUserLocation (Some location) s)).

(** [s.split(',')[0]] *)
Definition before_comma (s : jsstring) : jsstring :=
  fst (span (fun c => negb (c =? 44)) s).

(** [handleSuggestionClick] *)
Definition handleSuggestionClick (place : GeoHit) (s : AppState) : AppState :=
  let formattedName := before_comma (display_name place) in
  handleLocationSelect
    {| lat := parseFloat (hit_lat place); lng := parseFloat (hit_lon place) |}
    (setLocationInput formattedName s).

(** [handleInputChange] *)
Definition handleInputChange (value : jsstring) (s : AppState) : AppState :=
  if isUsingGPS s then setIsUsingGPS false (setLocationInput value s)
  else setLocationInput value s.

(** [handleClear] *)
Definition handleClear (s : AppState) : AppState :=
  setIsUsingGPS false (setLocationInput [] s).

(** [handleRequestLocation], up to the call of the geolocation API;
    [available] tells whether [navigator.geolocation] exists. *)
Definition handleRequestLocation (available : bool) (s : AppState) : AppState :=
  if available then
    setLocationInput (lit "Locating...")
      (setIsUsingGPS true (setLocationStatus locating s))
  else setIsUsingGPS false (setLocationStatus error s).

(** The two callbacks passed to [getCurrentPosition]. *)
Definition geolocation_success (position : ResortLocation) (s : AppState)
    : AppState :=
  setLocationInput current_location_label
    (setLocationStatus success (setUserLocation (Some position) s)).

Definition geolocation_error (s : AppState) : AppState :=
  setIsUsingGPS false (setLocationInput [] (setLocationStatus error s)).

(** The effect that scrolls to the results and clears its flag. *)
Definition scroll_effect (s : AppState) : AppState :=
  if shouldScrollToResults s && negb (bool_decide (resorts s = []))
     && searchPerformed s then
    setShouldScrollToResults false s
  else s.

(** [String.prototype.trim] *)
Definition trim (s : jsstring) : jsstring :=
  reverse (snd (span is_space (reverse (snd (span is_space s))))).

(** [canSearch] of [InputSection]: the search button is disabled
    unless it holds. *)
Definition canSearch (s : AppState) : bool :=
  negb (loading s)
  && ((2 <? length (trim (locationInput s)))%nat && negb (isUsingGPS s)
      || isUsingGPS s
         && match locationStatus s with success => true | _ => false end).

(** The "Load More Resorts" button is rendered. *)
Definition load_more_button (s : AppState) : bool :=
  searchPerformed s && negb (loading s) && hasMore s.

(** ** The page as the user drives it

    What can happen to the rendered component: clicks on the controls
    that are enabled, the intersection observer firing, the callbacks of
    the geolocation API and the arrival of answers.  After each event
    React renders the new state and updates the callback ref of the
    sentinel element. *)

(** The intersection observer kept in the ref [observer]: the render
    whose closure its callback holds, and the element it observes. *)
Record Observer : Type := {
  obs_closure : AppState;
  obs_target : option jsstring
}.

(** [lastResortElementRef] of the render with state [cl], called with
    an element or with null. A new observer replaces the old one, which
    is disconnected. *)
Definition lastResortElementRef (cl : AppState) (node : option jsstring)
    (observer : option Observer) : option Observer :=
  if loading cl then observer
  else Some {| obs_closure := cl; obs_target := node |}.

(** The callback of the observer. *)
Definition observer_callback (o : Observer) (isIntersecting : bool)
    (w : World) : World :=
  if isIntersecting && hasMore (obs_closure o) then
    handleLoadMore (obs_closure o) w
  else w.

(** The element that carries the ref: the second-to-last card of the
    visible list, when the results are shown and there are at least
    two. *)
Definition sentinel (s : AppState) : option jsstring :=
  if searchPerformed s then
    let visible := filteredAndSortedResorts (resorts s) (sortType s) (filters s) in
    if (1 <? length visible)%nat then
      id <$> visible !! (length visible - 2)%nat
    else None
  else None.

Record Browser : Type := {
  world : World;
  memo : AppState;
  observer : option Observer
}.

(** The dependencies of the [useCallback]: [loading] and [hasMore]. *)
Definition same_deps (a b : AppState) : bool :=
  eqb (loading a) (loading b) && eqb (hasMore a) (hasMore b).

(** Rendering the state of [w']: [useCallback] keeps the callback of
    the render [memo] unless a dependency changed; when the callback or
    the sentinel element changed, React calls the old callback with
    null and the new one with the new element. *)
Definition detach (old : Browser) : option Observer :=
  match sentinel (state (world old)) with
  | Some _ => lastResortElementRef (memo old) None (observer old)
  | None => observer old
  end.

Definition commit (old : Browser) (w' : World) : Browser :=
  let memo' := if same_deps (memo old) (state w') then memo old else state w' in
  let node := sentinel (state (world old)) in
  let node' := sentinel (state w') in
  if same_deps (memo old) (state w') && bool_decide (node = node') then
    {| world := w'; memo := memo'; observer := observer old |}
  else
    let attached :=
      match node' with
      | Some n => lastResortElementRef memo' (Some n) (detach old)
      | None => detach old
      end in
    {| world := w'; memo := memo'; observer := attached |}.

Inductive Event : Type :=
| ClickSearch
| ClickLoadMore
| Intersect (isIntersecting : bool)
| InputChange (value : jsstring)
| ClickClear
| ClickSuggestion (place : GeoHit)
| ClickGps (available : bool)
| GpsSuccess (position : ResortLocation)
| GpsError
| DateChange (d : jsstring)
| SortChange (s : SortType)
| FiltersChange (f : Filters)
| Scrolled
| Arrival (i : nat) (a : Answer).

(** The element the observer observes, if any. *)
Definition observing (b : Browser) : option Observer :=
  match observer b with
  | Some o => match obs_target o with Some _ => Some o | None => None end
  | None => None
  end.

(** What an event does to the world; [None] when the page offers no
    such event in this state. *)
Definition react (e : Event) (b : Browser) : option World :=
  let w := world b in
  match e with
  | ClickSearch =>
      if canSearch (state w) then Some (handleSearch w) else None
  | ClickLoadMore =>
      if load_more_button (state w) then Some (handleLoadMore (state w) w)
      else None
  | Intersect i =>
      match observing b with
      | Some o => Some (observer_callback o i w)
      | None => None
      end
  | InputChange v => Some (with_state (handleInputChange v) w)
  | ClickClear => Some (with_state handleClear w)
  | ClickSuggestion place => Some (with_state (handleSuggestionClick place) w)
  | ClickGps available => Some (with_state (handleRequestLocation available) w)
  | GpsSuccess position => Some (with_state (geolocation_success position) w)
  | GpsError => Some (with_state geolocation_error w)
  | DateChange d => Some (with_state (setDate d) w)
  | SortChange s => Some (with_state (setSortType s) w)
  | FiltersChange f => Some (with_state (setFilters f) w)
  | Scrolled => Some (with_state scroll_effect w)
  | Arrival i a => arrive i a w
  end.

Definition step (e : Event) (b : Browser) : option Browser :=
  match react e b with
  | Some w' => Some (commit b w')
  | None => None
  end.

Definition initial_browser (today : jsstring) : Browser :=
  {| world := start_world (initial_state today);
     memo := initial_state today;
     observer := None |}.

Inductive reachable (today : jsstring) : Browser -> Prop :=
| reachable_initial : reachable today (initial_browser today)
| reachable_step b e b' :
    reachable today b -> step e b = Some b' -> reachable today b'.

(** * The components around the list *)

(** ** FilterSortModal.tsx *)

(** [keyof Filters] *)
Inductive FilterKey : Type :=
| key_goodWeather
| key_freshSnow
| key_liftsOpen
| key_minPistes.

(** [filters[key]] *)
Definition filter_value (key : FilterKey) (filters : Filters) : bool :=
  match key with
  | key_goodWeather => goodWeather filters
  | key_freshSnow => freshSnow filters
  | key_liftsOpen => liftsOpen filters
  | key_minPistes => minPistes filters
  end.

(** [handleFilterToggle]: [{ ...filters, [key]: !filters[key] }], which
    is passed to [onFiltersChange]. *)
Definition handleFilterToggle (key : FilterKey) (filters : Filters) : Filters :=
  match key with
  | key_goodWeather =>
      {| goodWeather := negb (goodWeather filters);
         freshSnow := freshSnow filters; liftsOpen := liftsOpen filters;
         minPistes := minPistes filters |}
  | key_freshSnow =>
      {| goodWeather := goodWeather filters;
         freshSnow := negb (freshSnow filters);
         liftsOpen := liftsOpen filters; minPistes := minPistes filters |}
  | key_liftsOpen =>
      {| goodWeather := goodWeather filters; freshSnow := freshSnow filters;
         liftsOpen := negb (liftsOpen filters);
         minPistes := minPistes filters |}
  | key_minPistes =>
      {| goodWeather := goodWeather filters; freshSnow := freshSnow filters;
         liftsOpen := liftsOpen filters;
         minPistes := negb (minPistes filters) |}
  end.

(** [Object.values(filters).filter(Boolean).length] *)
Definition activeFiltersCount (filters : Filters) : nat :=
  length
    (List.filter (fun b : bool => b)
       [goodWeather filters; freshSnow filters; liftsOpen filters;
        minPistes filters]).

(** The "Clear filters" button. *)
Definition clear_filters : Filters :=
  {| goodWeather := false; freshSnow := false; liftsOpen := false;
     minPistes := false |}.

(** ** WeatherIcon.tsx *)

Inductive Icon : Type := CloudSnow | CloudRain | Cloud | CloudSun | Sun.

Definition WeatherIcon (snowfallCm rainMm cloudCover : Q) : Icon :=
  if Qltb 0 snowfallCm then CloudSnow
  else if Qltb 0 rainMm then CloudRain
  else if Qltb 75 cloudCover then Cloud
  else if Qltb 25 cloudCover then CloudSun
  else Sun.

(** ** ResortCard.tsx *)

(** [Math.round]: the nearest integer, halves upwards. *)
Definition math_round (x : Q) : Z := Qfloor (x + (1 # 2)).








(** The icon of a [WeatherSlot]. *)
Definition WeatherSlot_icon (data : WeatherPeriod) : Icon :=
  WeatherIcon (snowfall_cm data) (precipitation_mm data)
    (cloud_cover_percent data).

(** [avgCloudCover]: the rounded mean over the three periods. *)
Definition avgCloudCover (weather : WeatherData) : Z :=
  let periods := [morning weather; midday weather; afternoon weather] in
  math_round
    (fold_left (fun acc curr => acc + cloud_cover_percent curr)%Q periods 0%Q
     / inject_Z (Z.of_nat (length periods)))%Q.

(** The icon of the summary card: the midday precipitation with the
    average cloud cover. *)
Definition summary_icon (resort : Resort) : Icon :=
  let representativePeriod := midday (weather resort) in
  WeatherIcon (snowfall_cm representativePeriod)
    (precipitation_mm representativePeriod)
    (inject_Z (avgCloudCover (weather resort))).

(** The "Fresh (24h)" badge is rendered. *)
Definition fresh_snow_badge (resort : Resort) : bool :=
  Qltb 0 (snowfall_prev_24h_cm (weather resort)).

(** ** The suggestions of [InputSection]

    The component keeps the suggestions in state of its own; the timer
    callback of its debounce effect awaits [searchLocations]. *)

Record Suggestions : Type := {
  suggestions : list GeoHit;
  showSuggestions : bool;
  isSearchingLocation : bool
}.

Definition setSuggestions (v : list GeoHit) (s : Suggestions) : Suggestions :=
  {| suggestions := v; showSuggestions := showSuggestions s;
     isSearchingLocation := isSearchingLocation s |}.

Definition setShowSuggestions (v : bool) (s : Suggestions) : Suggestions :=
  {| suggestions := suggestions s; showSuggestions := v;
     isSearchingLocation := isSearchingLocation s |}.

Definition setIsSearchingLocation (v : bool) (s : Suggestions) : Suggestions :=
  {| suggestions := suggestions s; showSuggestions := showSuggestions s;
     isSearchingLocation := v |}.

(** A computation of [InputSection]: it updates the suggestions, writes
    to the console, awaits the place search, and returns or throws. *)
Inductive Task (A : Type) : Type :=
| Done (a : A)
| Reject (e : JsError)
| Change (f : Suggestions -> Suggestions) (k : Task A)
| Log (message : jsstring) (e : JsError) (k : Task A)
| AwaitPlaces (query : jsstring) (k : HttpResult (list GeoHit) -> Task A).
Arguments Done {A}.
Arguments Reject {A}.
Arguments Change {A}.
Arguments Log {A}.
Arguments AwaitPlaces {A}.

Fixpoint task_bind {A B : Type} (m : Task A) (f : A -> Task B) : Task B :=
  match m with
  | Done a => f a
  | Reject e => Reject e
  | Change g k => Change g (task_bind k f)
  | Log msg e k => Log msg e (task_bind k f)
  | AwaitPlaces q k => AwaitPlaces q (fun r => task_bind (k r) f)
  end.

Fixpoint task_catch {A : Type} (m : Task A) (h : JsError -> Task A) : Task A :=
  match m with
  | Done a => Done a
  | Reject e => h e
  | Change g k => Change g (task_catch k h)
  | Log msg e k => Log msg e (task_catch k h)
  | AwaitPlaces q k => AwaitPlaces q (fun r => task_catch (k r) h)
  end.

(** [searchLocations] of services/api.ts. *)
Definition searchLocations (query : jsstring) : Task (list GeoHit) :=
  task_catch
    (if (length query <? 3)%nat then Done []
     else
       AwaitPlaces query
         (fun result =>
            match result with
            | Rejected e => Reject e
            | Responded response =>
                if negb (ok response) then Done []
                else
                  match body response with
                  | Some data => Done data
                  | None => Reject (SyntaxError (lit "Unexpected token"))
                  end
            end))
    (fun error => Log (lit "Location search error:") error (Done [])).

(** The callback of the timer of the debounce effect, with the
    [locationInput] and [isUsingGPS] of its render. *)
Definition suggestions_timer (locationInput : jsstring) (isUsingGPS : bool)
    : Task unit :=
  if (2 <? length locationInput)%nat && negb isUsingGPS
     && negb (str_eqb locationInput current_location_label) then
    Change (setIsSearchingLocation true)
      (task_bind (searchLocations locationInput)
         (fun results =>
            Change (setSuggestions results)
              (Change (setShowSuggestions (0 <? length results)%nat)
                 (Change (setIsSearchingLocation false) (Done tt)))))
  else Change (setSuggestions []) (Change (setShowSuggestions false) (Done tt)).

(** What a computation has done when it has settled. *)
Record Settled (A : Type) : Type := {
  final : Suggestions;
  asked : list jsstring;
  logged : list (jsstring * JsError);
  outcome : A + JsError
}.
Arguments final {A}.
Arguments asked {A}.
Arguments logged {A}.
Arguments outcome {A}.

(** Runs a computation to its end; [net] gives the answer to the
    search for a query. *)
Fixpoint settle {A : Type} (m : Task A)
    (net : jsstring -> HttpResult (list GeoHit))
    (s : Suggestions) (qs : list jsstring) (log : list (jsstring * JsError))
    : Settled A :=
  match m with
  | Done a => {| final := s; asked := qs; logged := log; outcome := inl a |}
  | Reject e => {| final := s; asked := qs; logged := log; outcome := inr e |}
  | Change f k => settle k net (f s) qs log
  | Log msg e k => settle k net s qs (log ++ [(msg, e)])
  | AwaitPlaces q k => settle (k (net q)) net s (qs ++ [q]) log
  end.

(** * The vocabulary of the statements

    What the properties below are stated with: what the two patterns
    mean, the order the comparator sorts by, the exchanges a call of
    [loadResorts] awaits and what it does with their answers, and the
    states the page can reach. *)

(** ** Runs of a character class *)

(** [s] does not start with a character of the class. *)
Definition stops (p : N -> bool) (s : jsstring) : Prop :=
  match s with
  | [] => True
  | c :: _ => p c = false
  end.

Definition all_of (p : N -> bool) (s : jsstring) : Prop :=
  Forall (fun c => p c = true) s.

(** ** The greedy quantifier on a character class *)

(** What [Star (Chr p)] does: consume while the class holds, then ask
    the continuation, giving characters back one at a time on failure. *)
Fixpoint greedy (p : N -> bool) (s : jsstring)
    (k : jsstring -> option captures) : option captures :=
  match s with
  | x :: s' =>
      if p x then
        match greedy p s' k with
        | Some m => Some m
        | None => k s
        end
      else k s
  | [] => k []
  end.

(** The result of a captured [p+] once backtracking is ruled out: the
    whole run is the group. *)
Definition cap_run (p : N -> bool) (i : nat) (s : jsstring) (c : captures)
    (k : jsstring -> captures -> option captures) : option captures :=
  match fst (span p s) with
  | [] => None
  | t => k (snd (span p s)) (<[i := t]> c)
  end.

(** ** The lift pattern *)

(** The pattern read from the head of [s] without backtracking: the
    two groups and the input left after the match. *)
Definition lifts_at (s : jsstring)
    : option (jsstring * jsstring * jsstring) :=
  match span is_digit s with
  | ([], _) => None
  | (o, r1) =>
      match snd (span is_space r1) with
      | x :: r3 =>
          if is_char slash x then
            match span is_digit (snd (span is_space r3)) with
            | ([], _) => None
            | (t, rest) => Some (o, t, rest)
            end
          else None
      | [] => None
      end
  end.

Definition lifts_tail3 : regex :=
  Cat (Star (Chr is_space)) (Cap 2 (Plus (Chr is_digit))).
Definition lifts_tail2 : regex := Cat (Chr (is_char slash)) lifts_tail3.
Definition lifts_tail1 : regex := Cat (Star (Chr is_space)) lifts_tail2.

(** The leftmost match, as [regex_exec] looks for it. *)
Fixpoint lifts_find (s : jsstring) : option (jsstring * jsstring) :=
  match lifts_at s with
  | Some (o, t, _) => Some (o, t)
  | None =>
      match s with
      | [] => None
      | _ :: s' => lifts_find s'
      end
  end.

(** *** What the pattern means *)

(** [\d+]: a non-empty run of digits; [\s*]: a run of white space. *)
Definition digits (s : jsstring) : Prop := s <> [] /\ all_of is_digit s.
Definition spaces (s : jsstring) : Prop := all_of is_space s.

(** [s] starts with [<open>/<total>], white space allowed around the
    slash, and [rest] is what follows. *)
Definition lifts_occurrence (s o t rest : jsstring) : Prop :=
  exists w1 w2,
    s = o ++ w1 ++ slash :: w2 ++ t ++ rest
    /\ digits o /\ spaces w1 /\ spaces w2 /\ digits t.

(** The match the pattern finds in [s]: the leftmost occurrence, with
    the second group extended as far as digits go. *)
Definition lifts_first (s o t : jsstring) : Prop :=
  exists pre s' rest,
    s = pre ++ s'
    /\ lifts_occurrence s' o t rest
    /\ stops is_digit rest
    /\ forall p1 p2, pre = p1 ++ p2 -> p2 <> [] ->
       forall o' t' rest', ~ lifts_occurrence (p2 ++ s') o' t' rest'.

(** ** The piste pattern *)

(** The pattern read from the head of [s]: the captured numeral and the
    input left after it. *)
Definition pistes_at (s : jsstring) : option (jsstring * jsstring) :=
  match span is_digit s with
  | ([], _) => None
  | (ip, r) =>
      match r with
      | y :: r' =>
          if is_char dot y then
            match span is_digit r' with
            | ([], _) => Some (ip, r)
            | (fp, rest) => Some (ip ++ y :: fp, rest)
            end
          else Some (ip, r)
      | [] => Some (ip, r)
      end
  end.

Definition pistes_frac : regex := Cat (Chr (is_char dot)) (Plus (Chr is_digit)).

Fixpoint pistes_find (s : jsstring) : option jsstring :=
  match pistes_at s with
  | Some (g, _) => Some g
  | None =>
      match s with
      | [] => None
      | _ :: s' => pistes_find s'
      end
  end.

(** *** What the pattern means *)

(** The text and the value of the numeral with integer part [ip] and
    fraction digits [fp] (no fraction when [fp] is empty). *)
Definition numeral_text (ip fp : jsstring) : jsstring :=
  match fp with
  | [] => ip
  | _ => ip ++ dot :: fp
  end.

Definition numeral_value (ip fp : jsstring) : Q :=
  match fp with
  | [] => inject_Z (Z.of_N (digits_val ip))
  | _ =>
      inject_Z (Z.of_N (digits_val ip))
      + inject_Z (Z.of_N (digits_val fp)) / inject_Z (10 ^ Z.of_nat (length fp))
  end.

(** [rest] does not continue a numeral with a fraction. *)
Definition no_fraction (rest : jsstring) : Prop :=
  forall c r, rest = dot :: c :: r -> is_digit c = false.

(** A numeral at the head of [s], as long as it can be. *)
Definition numeral_at (s ip fp rest : jsstring) : Prop :=
  digits ip /\ all_of is_digit fp /\ s = numeral_text ip fp ++ rest
  /\ stops is_digit rest /\ (fp = [] -> no_fraction rest).

(** The first decimal number of [s]: nothing before it is a digit. *)
Definition first_decimal (s ip fp : jsstring) : Prop :=
  exists pre rest,
    all_of (fun c => negb (is_digit c)) pre
    /\ s = pre ++ numeral_text ip fp ++ rest
    /\ numeral_at (numeral_text ip fp ++ rest) ip fp rest.

(** ** The lifts-open filter *)



(** The reading of the lift filter under which every total of zero
    gives the ratio Infinity and lets the record pass. *)
Definition total_zero_always_passes : Prop :=
  forall resort s o t,
    report_lifts resort = Some s -> lifts_first s o t ->
    parseInt t = Fin 0 ->
    num_div (parseInt o) (parseInt t) = PosInf
    /\ hasEnoughLiftsOpen resort = true.

(** ** Sorting *)

(** The values a sort field can take: a number, or Infinity for a
    missing field. *)
Definition ordinary (v : jsnum) : Prop :=
  match v with
  | Fin _ | PosInf => True
  | NegInf | NaN => False
  end.

(** A comparator that subtracts the values of its arguments, and the
    order it sorts by. *)
Definition by_value {A : Type} (val : A -> jsnum) (a b : A) : jsnum :=
  num_sub (val a) (val b).

Definition le_value {A : Type} (val : A -> jsnum) (a b : A) : Prop :=
  num_le (val a) (val b) = true.

(** ** The visible list *)



(** ** What a call awaits *)

(** The first exchange a computation awaits, if it awaits one. *)
Fixpoint suspends (m : Async unit) : option Pending :=
  match m with
  | Ret _ | Throw _ => None
  | Update _ k | Alert _ k | ConsoleError _ _ k => suspends k
  | AwaitResorts req k => Some (PendingResorts req k)
  | AwaitGeocode q k => Some (PendingGeocode q k)
  end.

(** The exchanges a computation awaits in the course of its execution,
    whatever the answers to the earlier ones. *)
Inductive awaited_by : Async unit -> Pending -> Prop :=
| awaited_first m p : suspends m = Some p -> awaited_by m p
| awaited_next m p0 a m' p :
    suspends m = Some p0 -> resume p0 a = Some m' -> awaited_by m' p ->
    awaited_by m p.

(** The [try], [catch] and [finally] of [loadResorts] around [m]. *)
Definition guarded (m : Async unit) : Async unit :=
  try_finally
    (try_catch m
       (fun error => console_error (lit "Error loading resorts") error))
    (set_state (setLoading false)).

(** What [loadResorts] does with the answer to its fetch. *)
Definition page_continuation (cl : AppState) (isNewSearch : bool)
    (target : ResortLocation) : HttpResult ResortsResponse -> Async unit :=
  match suspends (guarded (loadResorts_page cl isNewSearch target)) with
  | Some (PendingResorts _ k) => k
  | _ => fun _ => Ret tt
  end.

Definition page_request (cl : AppState) (isNewSearch : bool)
    (target : ResortLocation) : SearchParams :=
  {| req_lat := lat target; req_lng := lng target; req_date := date cl;
     req_page := if isNewSearch then 1%nat else (page cl + 1)%nat;
     req_pageSize := default_pageSize |}.

(** A good answer with the page [data]. *)
Definition page_ok (data : ResortsResponse) : HttpResult ResortsResponse :=
  Responded {| ok := true; statusText := lit "OK"; body := Some data |}.

(** The fetch failed: the network, a status that is not 2xx, or a body
    that is not JSON. *)
Definition fetch_failed (r : HttpResult ResortsResponse) : Prop :=
  match r with
  | Rejected _ => True
  | Responded response => ok response = false \/ body response = None
  end.

(** The error [fetchResorts] throws for a failed fetch. *)
Definition fetch_error (r : HttpResult ResortsResponse) : JsError :=
  match r with
  | Rejected e => e
  | Responded response =>
      if negb (ok response) then
        Error (lit "API Error: " ++ statusText response)
      else SyntaxError (lit "Unexpected token")
  end.

(** What [geocodeLocation] returns for an answer, and what it logs. *)
Definition geocode_result (r : HttpResult (list GeoHit))
    : option ResortLocation :=
  match r with
  | Rejected _ => None
  | Responded response =>
      match body response with
      | Some (hit :: _) =>
          Some {| lat := parseFloat (hit_lat hit);
                  lng := parseFloat (hit_lon hit) |}
      | _ => None
      end
  end.

Definition geocode_log (r : HttpResult (list GeoHit)) : list Output :=
  match r with
  | Rejected e => [Logged (lit "Geocoding error:") e]
  | Responded response =>
      match body response with
      | Some _ => []
      | None =>
          [Logged (lit "Geocoding error:")
             (SyntaxError (lit "Unexpected token"))]
      end
  end.

(** The service answered with an empty array. *)
Definition no_match : HttpResult (list GeoHit) :=
  Responded {| ok := true; statusText := lit "OK"; body := Some [] |}.

(** The text of the location field has to be geocoded. *)
Definition must_geocode (cl : AppState) : bool :=
  negb (isUsingGPS cl) && typed_text cl
  && match userLocation cl with Some _ => false | None => true end.

(** What [loadResorts] does with the answer of the geocoding service. *)
Definition geocode_continuation (cl : AppState) (isNewSearch : bool)
    : HttpResult (list GeoHit) -> Async unit :=
  match suspends (guarded (loadResorts_try cl isNewSearch None)) with
  | Some (PendingGeocode _ k) => k
  | _ => fun _ => Ret tt
  end.

(** ** Pages *)




(** The state after a page has been applied. *)
Definition apply_page (isNewSearch : bool) (pageToFetch : nat)
    (data : ResortsResponse) (s : AppState) : AppState :=
  setLoading false
    (setSearchPerformed true
       (setTotalResorts (total_resorts data)
          (setHasMore (has_more data)
             (setPage pageToFetch
                (setResorts
                   (fun prev =>
                      if isNewSearch then resp_resorts data
                      else prev ++ resp_resorts data) s))))).


(** ** Two calls at once *)



(** ** The page as the user drives it *)

(** The callback ref is up to date: the memoised callback has the
    current dependencies and page, and an observer observes only while
    nothing is loading, and then the current sentinel with the current
    page in its closure. *)
Definition ref_current (b : Browser) : Prop :=
  same_deps (memo b) (state (world b)) = true
  /\ page (memo b) = page (state (world b))
  /\ forall o,
       observing b = Some o ->
       loading (state (world b)) = false
       /\ obs_target o = sentinel (state (world b))
       /\ page (obs_closure o) = page (state (world b))
       /\ hasMore (obs_closure o) = hasMore (state (world b)).

(** Nothing is outstanding and [loading] is off, or one exchange of
    one call of [loadResorts] is outstanding and [loading] is on. *)
Definition one_call (w : World) : Prop :=
  (pending w = [] /\ loading (state w) = false)
  \/ exists cl isNewSearch p,
       pending w = [p] /\ loading (state w) = true
       /\ awaited_by (loadResorts cl isNewSearch) p.

(** ** One call at a time *)

Definition current (b : Browser) : Prop := one_call (world b) /\ ref_current b.

(** ** What the page allows while an exchange is outstanding *)

Fixpoint after_events (es : list Event) (b : Browser) : option Browser :=
  match es with
  | [] => Some b
  | e :: es' =>
      match step e b with
      | Some b' => after_events es' b'
      | None => None
      end
  end.

(** ** The card and the filters *)

(** Sunny or partly cloudy. *)
Definition fair (i : Icon) : bool :=
  match i with
  | Sun | CloudSun => true
  | _ => false
  end.

(** The precipitation figures of a period are not negative. *)
Definition measured (p : WeatherPeriod) : Prop :=
  (0 <= snowfall_cm p)%Q /\ (0 <= precipitation_mm p)%Q.

(** The filters with the fresh-snow toggle set. *)
Definition set_freshSnow (b : bool) (f : Filters) : Filters :=
  {| goodWeather := goodWeather f; freshSnow := b; liftsOpen := liftsOpen f;
     minPistes := minPistes f |}.

(** ** The changes of state an event can make *)

(** An entry of the trace other than an unhandled rejection. *)
Definition handled (o : Output) : bool :=
  match o with UnhandledRejection _ => false | _ => true end.

(** The updates of the state made by the handlers, by the effects and
    by a call of [loadResorts] between two of its awaits. *)
Inductive update : (AppState -> AppState) -> Prop :=
| update_loading v : update (setLoading v)
| update_scroll_flag f :
    update f -> update (fun s => f (setShouldScrollToResults true s))
| update_input v : update (handleInputChange v)
| update_clear : update handleClear
| update_suggestion place : update (handleSuggestionClick place)
| update_gps available : update (handleRequestLocation available)
| update_gps_success position : update (geolocation_success position)
| update_gps_error : update geolocation_error
| update_date d : update (setDate d)
| update_sort t : update (setSortType t)
| update_filters f : update (setFilters f)
| update_scrolled : update scroll_effect
| update_location g : update (setUserLocation (Some g))
| update_page isNewSearch n data :
    (1 <= n)%nat -> update (apply_page isNewSearch n data)
| update_none : update (fun s => s).

(** ** Every call ends *)


(** ** The location and the search button *)

(** While the GPS is in use the position is being taken or is held. *)
Definition gps_mode (s : AppState) : Prop :=
  isUsingGPS s = true ->
  (locationStatus s = locating /\ locationInput s = lit "Locating...")
  \/ (locationStatus s = success
      /\ locationInput s = current_location_label
      /\ is_Some (userLocation s)).

(** The events that can put another location in place of the one that
    is held. *)
Definition relocates (e : Event) : bool :=
  match e with
  | ClickSuggestion _ | GpsSuccess _ | Arrival _ (GeocodeAnswer _) => true
  | _ => false
  end.

(** ** Pages and the triggers of load-more *)

(** Before the first page was applied there are no results, and the
    page counter starts at 1. *)
Definition pristine (s : AppState) : Prop :=
  (1 <= page s)%nat
  /\ (searchPerformed s = false ->
      resorts s = [] /\ page s = 1%nat /\ hasMore s = false
      /\ totalResorts s = 0%nat).

(** ** The closure of the observer *)

(** The events that change neither [loading] nor [hasMore] nor the
    list that is shown. *)
Definition quiet (e : Event) : bool :=
  match e with
  | InputChange _ | ClickClear | ClickSuggestion _ | ClickGps _
  | GpsSuccess _ | GpsError | DateChange _ | Scrolled => true
  | _ => false
  end.

(** ** When the observer is armed *)

(** Whenever nothing is loading and the sentinel element exists, the
    observer observes an element. *)
Definition armed (b : Browser) : Prop :=
  loading (state (world b)) = false ->
  forall n, sentinel (state (world b)) = Some n ->
  exists o, observing b = Some o.

(** ** Suggestions fail soft *)

(** The places an answer carries: none unless the status is 2xx and the
    body parses. *)
Definition places (r : HttpResult (list GeoHit)) : list GeoHit :=
  match r with
  | Responded {| ok := true; body := Some data |} => data
  | _ => []
  end.

(** * Sample data

    Records and states on which the functions are evaluated. *)

Definition clear_sky : WeatherPeriod :=
  {| time := lit "09:00"; temperature_celsius := -3; precipitation_mm := 0;
     snowfall_cm := 0; cloud_cover_percent := 10; visibility_m := 20000 |}.

Definition fair_weather : WeatherData :=
  {| snowfall_prev_24h_cm := 0; morning := clear_sky; midday := clear_sky;
     afternoon := clear_sky |}.

Definition report_of (pistes lifts : option jsstring) : SnowReport :=
  {| pistes_km := pistes; lifts := lifts; snow_depth_cm := lit "80";
     updated_on := lit "2025-01-09" |}.

(** A resort with the given identifier, distance fields and report. *)
Definition resort_of (ident : string) (km drive ride : option Q)
    (report : option SnowReport) : Resort :=
  {| id := lit ident; name := lit ident;
     location := {| lat := Fin (465 # 10); lng := Fin (75 # 10) |};
     elevation := lit "1800 m"; air_distance_km := 10;
     distance_km := km; duration_driving_minutes := drive;
     duration_transit_minutes := ride;
     snow_report := report; weather := fair_weather |}.

Definition resort_with_lifts (l : option jsstring) : Resort :=
  resort_of "r" (Some 12%Q) (Some 30%Q) (Some 55%Q) (Some (report_of None l)).



Definition sample_a : Resort :=
  resort_of "a" (Some 30%Q) (Some 40%Q) None (Some (report_of None None)).
Definition sample_b : Resort :=
  resort_of "b" None (Some 25%Q) (Some 90%Q) None.
Definition sample_c : Resort :=
  resort_of "c" (Some 10%Q) None (Some 90%Q) None.
Definition sample_d : Resort :=
  resort_of "d" (Some 30%Q) (Some 25%Q) None None.

Definition sample_store : store := {[ 0%nat := [sample_a; sample_b; sample_c; sample_d] ]}.

Definition typed_nowhere : AppState :=
  setLocationInput (lit "Nowhereville123xyz") (initial_state (lit "2025-01-10")).

Definition gps_ready : AppState :=
  setUserLocation (Some {| lat := Fin (465 # 10); lng := Fin (75 # 10) |})
    (setIsUsingGPS true
       (setLocationInput current_location_label
          (setLocationStatus success (initial_state (lit "2025-01-10"))))).

Definition page_of (n : nat) (more : bool) (l : list Resort) : ResortsResponse :=
  {| resp_page := n; page_size := 15; total_resorts := 32; has_more := more;
     resp_resorts := l |}.






(** The page after the GPS position was taken and the search button
    clicked: the first page is in flight. *)
Definition searching : Browser :=
  default (initial_browser (lit "2025-01-10"))
    (after_events
       [ClickGps true;
        GpsSuccess {| lat := Fin (465 # 10); lng := Fin (75 # 10) |};
        ClickSearch]
       (initial_browser (lit "2025-01-10"))).



(** Located by GPS on 2025-01-10, before any search. *)
Definition located : Browser :=
  default (initial_browser (lit "2025-01-10"))
    (after_events
       [ClickGps true;
        GpsSuccess {| lat := Fin (465 # 10); lng := Fin (75 # 10) |}]
       (initial_browser (lit "2025-01-10"))).

(** Located by GPS, then a place name was typed. *)
Definition retyped : Browser :=
  default (initial_browser (lit "2025-01-10"))
    (after_events
       [ClickGps true;
        GpsSuccess {| lat := Fin (465 # 10); lng := Fin (75 # 10) |};
        InputChange (lit "Zermatt")]
       (initial_browser (lit "2025-01-10"))).

(** The first page has arrived, with more to come. *)
Definition first_page_events : list Event :=
  [ClickGps true;
   GpsSuccess {| lat := Fin (465 # 10); lng := Fin (75 # 10) |};
   ClickSearch;
   Arrival 0 (ResortsAnswer (page_ok (page_of 1 true [sample_a; sample_b])))].

Definition first_page_shown : Browser :=
  default (initial_browser (lit "2025-01-10"))
    (after_events first_page_events (initial_browser (lit "2025-01-10"))).

(** Then another day is chosen. *)
Definition date_changed : Browser :=
  default (initial_browser (lit "2025-01-10"))
    (after_events (first_page_events ++ [DateChange (lit "2025-01-12")])
       (initial_browser (lit "2025-01-10"))).

(** * Properties *)

(** ** Character classes *)

Ltac class_facts :=
  unfold is_digit, is_space, is_char, slash, dot;
  repeat (rewrite ?andb_true_iff, ?orb_true_iff, ?andb_false_iff,
            ?orb_false_iff, ?N.leb_le, ?N.leb_gt, ?N.eqb_eq, ?N.eqb_neq);
  lia.

Lemma digit_not_space c : is_digit c = true -> is_space c = false.
Proof. class_facts. Qed.

Lemma digit_not_slash c : is_digit c = true -> is_char slash c = false.
Proof. class_facts. Qed.

Lemma space_not_slash c : is_space c = true -> is_char slash c = false.
Proof. class_facts. Qed.

Lemma space_not_digit c : is_space c = true -> is_digit c = false.
Proof. class_facts. Qed.

Lemma slash_not_digit c : is_char slash c = true -> is_digit c = false.
Proof. class_facts. Qed.

Lemma digit_not_dot c : is_digit c = true -> is_char dot c = false.
Proof. class_facts. Qed.

(** ** Runs of a character class *)

Lemma span_app p s : fst (span p s) ++ snd (span p s) = s.
Proof.
  induction s as [|c s IH]; simpl; [done|].
  destruct (p c); [|done].
  destruct (span p s) as [a b]; simpl in *. by rewrite IH.
Qed.

Lemma span_all p s : all_of p (fst (span p s)).
Proof.
  induction s as [|c s IH]; simpl; [constructor|].
  destruct (p c) eqn:E; [|constructor].
  destruct (span p s) as [a b]; simpl in *. by constructor.
Qed.

Lemma span_stops p s : stops p (snd (span p s)).
Proof.
  induction s as [|c s IH]; simpl; [done|].
  destruct (p c) eqn:E; [|done].
  by destruct (span p s) as [a b].
Qed.

(** A run followed by a stop is what [span] splits off. *)
Lemma span_unique p a b : all_of p a -> stops p b -> span p (a ++ b) = (a, b).
Proof.
  intros Ha Hb. induction Ha as [|c a Hc Ha IH]; simpl.
  - destruct b as [|c b]; simpl in *; [done|]. by rewrite Hb.
  - by rewrite Hc, IH.
Qed.

Lemma span_stop p s : stops p s -> span p s = ([], s).
Proof. intros H. by apply (span_unique p [] s); [constructor|]. Qed.

Lemma consumed_app (a b : jsstring) : consumed (a ++ b) b = a.
Proof.
  unfold consumed. rewrite length_app.
  replace (length a + length b - length b)%nat with (length a) by lia.
  by rewrite take_app_length.
Qed.

Lemma consumed_span p s : consumed s (snd (span p s)) = fst (span p s).
Proof.
  rewrite <- (span_app p s) at 1. apply consumed_app.
Qed.

(** ** The greedy quantifier on a character class *)

Lemma rmatch_star_chr p s c k :
  rmatch (Star (Chr p)) s c k = greedy p s (fun s1 => k s1 c).
Proof.
  simpl. generalize (le_n (length s)).
  generalize (length s) at 2 3 as n. intros n. revert s.
  induction n as [|n IH]; intros s Hn.
  - destruct s; simpl in *; [done | lia].
  - destruct s as [|x s]; simpl; [done|].
    destruct (p x); [|done].
    destruct (Nat.ltb_spec (length s) (S (length s))); [|lia].
    rewrite IH by (simpl in Hn; lia). done.
Qed.

(** The longest run is tried first. *)
Lemma greedy_longest p s k m :
  k (snd (span p s)) = Some m -> greedy p s k = Some m.
Proof.
  induction s as [|x s IH]; simpl; [done|].
  destruct (p x); [|done].
  destruct (span p s) as [a b]; simpl in *.
  intros H. by rewrite (IH H).
Qed.

(** When the continuation rejects every input that starts inside the
    run, giving characters back never helps. *)
Lemma greedy_commit p s k :
  (forall x t, p x = true -> k (x :: t) = None) ->
  greedy p s k = k (snd (span p s)).
Proof.
  intros Hk. induction s as [|x s IH]; simpl; [done|].
  destruct (p x) eqn:E; [|done].
  destruct (span p s) as [a b]; simpl in *.
  rewrite IH. destruct (k b); [done|]. by apply Hk.
Qed.

Lemma rmatch_chr_cons p x s c k :
  rmatch (Chr p) (x :: s) c k = if p x then k s c else None.
Proof. reflexivity. Qed.

Lemma rmatch_cat r1 r2 s c k :
  rmatch (Cat r1 r2) s c k = rmatch r1 s c (fun s1 c1 => rmatch r2 s1 c1 k).
Proof. reflexivity. Qed.

Lemma rmatch_opt r s c k :
  rmatch (Opt r) s c k =
  match rmatch r s c k with Some m => Some m | None => k s c end.
Proof. reflexivity. Qed.

(** A captured [p+]: one character of the class, then the greedy run. *)
Lemma rmatch_cap_plus p i s c k :
  rmatch (Cap i (Plus (Chr p))) s c k =
  match s with
  | x :: s' =>
      if p x then greedy p s' (fun s1 => k s1 (<[i := consumed s s1]> c))
      else None
  | [] => None
  end.
Proof.
  destruct s as [|x s']; [done|].
  transitivity
    (rmatch (Chr p) (x :: s') c
       (fun s1 c1 =>
          rmatch (Star (Chr p)) s1 c1
            (fun s2 c2 => k s2 (<[i := consumed (x :: s') s2]> c2))));
    [reflexivity|].
  rewrite rmatch_chr_cons. destruct (p x); [|done].
  apply rmatch_star_chr.
Qed.

Lemma consumed_cons_span p x s :
  p x = true ->
  consumed (x :: s) (snd (span p s)) = x :: fst (span p s).
Proof.
  intros Hx. rewrite <- (span_app p s) at 1.
  apply (consumed_app (x :: fst (span p s))).
Qed.

Lemma cap_run_cons p i x s c k :
  p x = true ->
  cap_run p i (x :: s) c k =
  k (snd (span p s)) (<[i := consumed (x :: s) (snd (span p s))]> c).
Proof.
  intros Hx. unfold cap_run. rewrite (consumed_cons_span p x s Hx).
  simpl. rewrite Hx. by destruct (span p s).
Qed.

Lemma cap_run_stop p i s c k : stops p s -> cap_run p i s c k = None.
Proof.
  intros H. unfold cap_run. by rewrite (span_stop p s H).
Qed.

Lemma rmatch_cap_plus_last p i s c k :
  (forall s' c', is_Some (k s' c')) ->
  rmatch (Cap i (Plus (Chr p))) s c k = cap_run p i s c k.
Proof.
  intros Hk. rewrite rmatch_cap_plus.
  destruct s as [|x s]; [done|].
  destruct (p x) eqn:Hx; [|by rewrite cap_run_stop].
  rewrite (cap_run_cons p i x s c k Hx).
  destruct (Hk (snd (span p s))
              (<[i := consumed (x :: s) (snd (span p s))]> c)) as [m Hm].
  rewrite Hm. by apply greedy_longest.
Qed.

Lemma rmatch_cap_plus_commit p i s c k :
  (forall x t c', p x = true -> k (x :: t) c' = None) ->
  rmatch (Cap i (Plus (Chr p))) s c k = cap_run p i s c k.
Proof.
  intros Hk. rewrite rmatch_cap_plus.
  destruct s as [|x s]; [done|].
  destruct (p x) eqn:Hx; [|by rewrite cap_run_stop].
  rewrite (cap_run_cons p i x s c k Hx).
  apply (greedy_commit p s
           (fun s1 => k s1 (<[i := consumed (x :: s) s1]> c))).
  intros y t Hy. by apply Hk.
Qed.

(** [p*] in front of a continuation that rejects the class. *)
Lemma rmatch_star_commit p s c k :
  (forall x t, p x = true -> k (x :: t) c = None) ->
  rmatch (Star (Chr p)) s c k = k (snd (span p s)) c.
Proof.
  intros Hk. rewrite rmatch_star_chr.
  by apply (greedy_commit p s (fun s1 => k s1 c)).
Qed.

(** ** The lift pattern *)

Lemma rmatch_lifts_tail3 s c k :
  (forall s' c', is_Some (k s' c')) ->
  rmatch lifts_tail3 s c k =
  cap_run is_digit 2 (snd (span is_space s)) c k.
Proof.
  intros Hk. unfold lifts_tail3. rewrite rmatch_cat.
  rewrite rmatch_star_commit.
  - by apply rmatch_cap_plus_last.
  - intros x t Hx. rewrite rmatch_cap_plus.
    by rewrite (space_not_digit x Hx).
Qed.

Lemma rmatch_lifts_tail2 s c k :
  rmatch lifts_tail2 s c k =
  match s with
  | x :: s' => if is_char slash x then rmatch lifts_tail3 s' c k else None
  | [] => None
  end.
Proof. by destruct s. Qed.

Lemma rmatch_lifts_tail1 s c k :
  rmatch lifts_tail1 s c k = rmatch lifts_tail2 (snd (span is_space s)) c k.
Proof.
  unfold lifts_tail1. rewrite rmatch_cat.
  apply (rmatch_star_commit is_space s c
           (fun s1 c1 => rmatch lifts_tail2 s1 c1 k)).
  intros x t Hx. rewrite rmatch_lifts_tail2.
  by rewrite (space_not_slash x Hx).
Qed.

Lemma rmatch_lifts s c k :
  (forall s' c', is_Some (k s' c')) ->
  rmatch lifts_re s c k =
  match lifts_at s with
  | Some (o, t, rest) => k rest (<[2%nat := t]> (<[1%nat := o]> c))
  | None => None
  end.
Proof.
  intros Hk.
  change lifts_re with (Cat (Cap 1 (Plus (Chr is_digit))) lifts_tail1).
  rewrite rmatch_cat, rmatch_cap_plus_commit.
  - unfold cap_run, lifts_at.
    destruct (span is_digit s) as [[|d o] r1]; cbn [fst snd]; [done|].
    rewrite rmatch_lifts_tail1, rmatch_lifts_tail2.
    destruct (snd (span is_space r1)) as [|x r3]; [done|].
    destruct (is_char slash x); [|done].
    rewrite (rmatch_lifts_tail3 _ _ _ Hk). unfold cap_run.
    by destruct (span is_digit (snd (span is_space r3))) as [[|e t] rest].
  - intros x t c' Hx. rewrite rmatch_lifts_tail1.
    rewrite (span_stop is_space (x :: t)) by (simpl; by apply digit_not_space).
    simpl snd. rewrite rmatch_lifts_tail2. by rewrite (digit_not_slash x Hx).
Qed.

Lemma is_Some_whole (s0 s' : jsstring) (c' : captures) :
  is_Some (Some (<[O := consumed s0 s']> c')).
Proof. by eexists. Qed.

Lemma str_match_lifts s :
  match lifts_find s with
  | Some (o, t) =>
      exists m, str_match s lifts_re = Some m
                /\ group m 1 = o /\ group m 2 = t
  | None => str_match s lifts_re = None
  end.
Proof.
  unfold str_match.
  induction s as [|x s IH].
  - cbn [regex_exec lifts_find].
    rewrite rmatch_lifts by (intros; apply is_Some_whole). done.
  - cbn [regex_exec lifts_find].
    rewrite rmatch_lifts by (intros; apply is_Some_whole).
    destruct (lifts_at (x :: s)) as [[[o t] rest]|]; [|exact IH].
    eexists; split; [reflexivity|]. unfold group.
    rewrite lookup_insert_ne by done.
    rewrite lookup_insert_ne by done.
    rewrite lookup_insert_eq.
    rewrite lookup_insert_ne by done.
    rewrite lookup_insert_eq. done.
Qed.

(** [hasEnoughLiftsOpen] in terms of the leftmost match. *)
Lemma hasEnoughLiftsOpen_find resort :
  hasEnoughLiftsOpen resort =
  match report_lifts resort with
  | Some s =>
      match lifts_find s with
      | Some (o, t) =>
          num_gt (num_div (parseInt o) (parseInt t)) (Fin (85 # 100))
      | None => false
      end
  | None => false
  end.
Proof.
  unfold hasEnoughLiftsOpen.
  destruct (report_lifts resort) as [s|]; [|done].
  change (default [] (Some s)) with s. cbn [falsy].
  pose proof (str_match_lifts s) as H.
  destruct (lifts_find s) as [[o t]|].
  - destruct H as (m & Hm & <- & <-). rewrite Hm.
    destruct s as [|x s]; [|done].
    cbv in Hm. discriminate Hm.
  - rewrite H. by destruct (truthy s).
Qed.

(** *** What the pattern means *)

Lemma stops_app_digits p q (a b : jsstring) :
  (forall c, q c = true -> p c = false) ->
  a <> [] -> all_of q a -> stops p (a ++ b).
Proof.
  intros Hpq Ha Hall. destruct a as [|c a]; [done|].
  simpl. apply Hpq. by inversion Hall.
Qed.

Lemma stops_spaces_slash p (w b : jsstring) :
  (forall c, is_space c = true -> p c = false) ->
  p slash = false ->
  spaces w -> stops p (w ++ slash :: b).
Proof.
  intros Hs Hsl Hw. destruct w as [|c w]; simpl; [done|].
  apply Hs. by inversion Hw.
Qed.

Lemma lifts_at_occurrence s o t rest :
  lifts_at s = Some (o, t, rest) <->
  lifts_occurrence s o t rest /\ stops is_digit rest.
Proof.
  split.
  - unfold lifts_at. intros H.
    pose proof (span_app is_digit s) as E1.
    pose proof (span_all is_digit s) as A1.
    destruct (span is_digit s) as [[|d o1] r1]; [done|].
    cbn [fst snd] in *.
    pose proof (span_app is_space r1) as E2.
    pose proof (span_all is_space r1) as A2.
    destruct (snd (span is_space r1)) as [|x r3]; [done|].
    destruct (is_char slash x) eqn:Hx; [|done].
    apply N.eqb_eq in Hx. subst x.
    pose proof (span_app is_space r3) as E3.
    pose proof (span_all is_space r3) as A3.
    pose proof (span_app is_digit (snd (span is_space r3))) as E4.
    pose proof (span_all is_digit (snd (span is_space r3))) as A4.
    pose proof (span_stops is_digit (snd (span is_space r3))) as S4.
    destruct (span is_digit (snd (span is_space r3))) as [[|e t1] rest1];
      [done|].
    cbn [fst snd] in *. injection H as <- <- <-.
    split; [|done].
    exists (fst (span is_space r1)), (fst (span is_space r3)).
    split; [|unfold digits, spaces; repeat split; done].
    rewrite <- E1. f_equal. rewrite <- E2 at 1. do 2 f_equal.
    rewrite E4. by rewrite E3.
  - intros [(w1 & w2 & -> & [Ho Ao] & Hw1 & Hw2 & [Ht At]) Hrest].
    unfold lifts_at.
    rewrite (span_unique is_digit o (w1 ++ slash :: w2 ++ t ++ rest) Ao)
      by (apply stops_spaces_slash;
          [apply space_not_digit | done | done]).
    destruct o as [|d o]; [done|].
    rewrite (span_unique is_space w1 (slash :: w2 ++ t ++ rest) Hw1)
      by done.
    cbn [snd]. change (is_char slash slash) with true. cbv iota.
    rewrite (span_unique is_space w2 (t ++ rest) Hw2)
      by (by apply (stops_app_digits is_space is_digit);
          [apply digit_not_space | |]).
    cbn [snd]. rewrite (span_unique is_digit t rest At Hrest).
    by destruct t.
Qed.

(** An occurrence at the head is found, whatever follows it. *)
Lemma lifts_at_complete s o t rest :
  lifts_occurrence s o t rest -> is_Some (lifts_at s).
Proof.
  intros (w1 & w2 & -> & Ho & Hw1 & Hw2 & [Ht At]).
  exists (o, t ++ fst (span is_digit rest), snd (span is_digit rest)).
  apply lifts_at_occurrence. split; [|apply span_stops].
  exists w1, w2. split.
  - rewrite <- (span_app is_digit rest) at 1. by rewrite <- !app_assoc.
  - repeat split; try done; try apply Ho.
    + by destruct t.
    + apply Forall_app. split; [done | apply span_all].
Qed.

Lemma lifts_find_first s o t :
  lifts_find s = Some (o, t) <-> lifts_first s o t.
Proof.
  split.
  - revert o t. induction s as [|x s IH]; intros o t;
      cbn [lifts_find];
      destruct (lifts_at _) as [[[o1 t1] rest]|] eqn:E; try done.
    + intros [= <- <-]. apply lifts_at_occurrence in E as [E1 E2].
      exists [], (x :: s), rest. repeat split; try done.
      intros [|] p2 Hp; [|done]. simpl in Hp. by subst.
    + intros H. destruct (IH _ _ H) as (pre & s' & rest & -> & Ho & Hr & Hn).
      exists (x :: pre), s', rest. repeat split; try done.
      intros [|y p1] p2 Hp Hp2 o' t' rest' Hocc.
      * simpl in Hp. subst p2.
        apply lifts_at_complete in Hocc. rewrite <- app_comm_cons in Hocc.
        rewrite E in Hocc. by destruct Hocc.
      * injection Hp as -> Hp. by apply (Hn p1 p2 Hp Hp2 o' t' rest').
  - intros (pre & s' & rest & -> & Ho & Hr & Hn).
    induction pre as [|x pre IH].
    + simpl. assert (lifts_at s' = Some (o, t, rest)) as E
        by by apply lifts_at_occurrence.
      destruct s'; cbn [lifts_find]; by rewrite E.
    + rewrite <- app_comm_cons. cbn [lifts_find].
      destruct (lifts_at (x :: pre ++ s')) as [[[o1 t1] rest1]|] eqn:E.
      * apply lifts_at_occurrence in E as [E _].
        by destruct (Hn [] (x :: pre) eq_refl ltac:(done) _ _ _ E).
      * apply IH. intros p1 p2 Hp. apply (Hn (x :: p1) p2).
        by rewrite Hp.
Qed.

(** ** The piste pattern *)

Lemma rmatch_plus_last p s c k :
  (forall s' c', is_Some (k s' c')) ->
  rmatch (Plus (Chr p)) s c k =
  match fst (span p s) with
  | [] => None
  | _ => k (snd (span p s)) c
  end.
Proof.
  intros Hk. unfold Plus. rewrite rmatch_cat.
  destruct s as [|x s]; [done|].
  rewrite rmatch_chr_cons. simpl span.
  destruct (p x); [|done].
  rewrite rmatch_star_chr.
  destruct (Hk (snd (span p s)) c) as [m Hm].
  rewrite (greedy_longest p s (fun s1 => k s1 c) m Hm).
  by destruct (span p s).
Qed.

Lemma rmatch_pistes_frac s c k :
  (forall s' c', is_Some (k s' c')) ->
  rmatch (Opt pistes_frac) s c k =
  match s with
  | y :: r' =>
      if is_char dot y then
        match fst (span is_digit r') with
        | [] => k s c
        | _ => k (snd (span is_digit r')) c
        end
      else k s c
  | [] => k s c
  end.
Proof.
  intros Hk. rewrite rmatch_opt. unfold pistes_frac. rewrite rmatch_cat.
  destruct s as [|y r']; [done|].
  rewrite rmatch_chr_cons. destruct (is_char dot y); [|done].
  rewrite (rmatch_plus_last _ _ _ _ Hk).
  destruct (fst (span is_digit r')); [done|].
  by destruct (Hk (snd (span is_digit r')) c) as [m ->].
Qed.

Lemma pistes_at_app s g rest : pistes_at s = Some (g, rest) -> s = g ++ rest.
Proof.
  unfold pistes_at. pose proof (span_app is_digit s) as E1.
  destruct (span is_digit s) as [[|d ip] r]; [done|]. cbn [fst snd] in E1.
  destruct r as [|y r']; [by intros [= <- <-]|].
  destruct (is_char dot y); [|by intros [= <- <-]].
  pose proof (span_app is_digit r') as E2.
  destruct (span is_digit r') as [[|e fp] rest']; [by intros [= <- <-]|].
  cbn [fst snd] in E2. intros [= <- <-].
  rewrite <- E1, <- E2. simpl. f_equal. by rewrite <- app_assoc.
Qed.

Lemma rmatch_pistes s c k :
  (forall s' c', is_Some (k s' c')) ->
  rmatch pistes_re s c k =
  match pistes_at s with
  | Some (g, rest) => k rest (<[1%nat := g]> c)
  | None => None
  end.
Proof.
  intros Hk.
  change pistes_re with (Cap 1 (Cat (Plus (Chr is_digit)) (Opt pistes_frac))).
  change (rmatch (Cap 1 (Cat (Plus (Chr is_digit)) (Opt pistes_frac))) s c k)
    with (rmatch (Plus (Chr is_digit)) s c
            (fun s1 c1 =>
               rmatch (Opt pistes_frac) s1 c1
                 (fun s2 c2 => k s2 (<[1%nat := consumed s s2]> c2)))).
  rewrite rmatch_plus_last.
  2:{ intros s' c'. rewrite rmatch_pistes_frac by (intros; apply Hk).
      destruct s' as [|y r']; [apply Hk|].
      destruct (is_char dot y); [|apply Hk].
      destruct (fst (span is_digit r')); apply Hk. }
  rewrite rmatch_pistes_frac by (intros; apply Hk).
  pose proof (pistes_at_app s) as Happ. unfold pistes_at in *.
  destruct (span is_digit s) as [[|d ip] r]; [done|]. cbn [fst snd].
  destruct r as [|y r'].
  { rewrite (Happ _ _ eq_refl) at 1. by rewrite consumed_app. }
  destruct (is_char dot y).
  2:{ rewrite (Happ _ _ eq_refl) at 1. by rewrite consumed_app. }
  destruct (span is_digit r') as [[|e fp] rest']; cbn [fst snd].
  { rewrite (Happ _ _ eq_refl) at 1. by rewrite consumed_app. }
  rewrite (Happ _ _ eq_refl) at 1. by rewrite consumed_app.
Qed.

Lemma str_match_pistes s :
  match pistes_find s with
  | Some g => exists m, str_match s pistes_re = Some m /\ group m 1 = g
  | None => str_match s pistes_re = None
  end.
Proof.
  unfold str_match.
  induction s as [|x s IH].
  - cbn [regex_exec pistes_find].
    rewrite rmatch_pistes by (intros; apply is_Some_whole). done.
  - cbn [regex_exec pistes_find].
    rewrite rmatch_pistes by (intros; apply is_Some_whole).
    destruct (pistes_at (x :: s)) as [[g rest]|]; [|exact IH].
    eexists; split; [reflexivity|]. unfold group.
    rewrite lookup_insert_ne by done.
    by rewrite lookup_insert_eq.
Qed.

Lemma getPistesKm_find resort :
  getPistesKm resort =
  match report_pistes_km resort with
  | Some s =>
      match pistes_find s with
      | Some g => parseFloat g
      | None => Fin 0
      end
  | None => Fin 0
  end.
Proof.
  unfold getPistesKm.
  destruct (report_pistes_km resort) as [s|]; [|done].
  change (default [] (Some s)) with s. cbn [falsy].
  pose proof (str_match_pistes s) as H.
  destruct (pistes_find s) as [g|].
  - destruct H as (m & Hm & <-). rewrite Hm.
    destruct s as [|x s]; [|done].
    cbv in Hm. discriminate Hm.
  - rewrite H. by destruct (truthy s).
Qed.

(** *** What the pattern means *)

Lemma pistes_at_numeral s g rest :
  pistes_at s = Some (g, rest) <->
  exists ip fp, g = numeral_text ip fp /\ numeral_at s ip fp rest.
Proof.
  split.
  - unfold pistes_at. intros H.
    pose proof (pistes_at_app s g rest H) as Hs. unfold pistes_at in H.
    pose proof (span_all is_digit s) as A1.
    pose proof (span_stops is_digit s) as S1.
    destruct (span is_digit s) as [[|d ip] r]; [done|]. cbn [fst snd] in *.
    assert (digits (d :: ip)) as Hip by done.
    destruct r as [|y r'].
    { injection H as <- <-. exists (d :: ip), []. repeat split; try done.
      constructor. }
    destruct (is_char dot y) eqn:Hy.
    2:{ injection H as <- <-. exists (d :: ip), [].
        repeat split; try done; [constructor|].
        intros _ c r [= -> _]. by cbv in Hy. }
    apply N.eqb_eq in Hy. subst y.
    pose proof (span_all is_digit r') as A2.
    pose proof (span_stops is_digit r') as S2.
    pose proof (span_app is_digit r') as E2.
    destruct (span is_digit r') as [[|e fp] rest']; cbn [fst snd] in *.
    { injection H as <- <-. exists (d :: ip), [].
      repeat split; try done.
      intros _ c r [= Hr]. simpl in E2. subst rest' r'. exact S2. }
    injection H as <- <-. exists (d :: ip), (e :: fp).
    repeat split; try done.
  - intros (ip & fp & -> & [Hne Aip] & Afp & -> & Hstop & Hnf).
    unfold pistes_at. destruct fp as [|e fp]; cbn [numeral_text].
    + rewrite (span_unique is_digit ip rest Aip Hstop).
      destruct ip as [|d ip]; [done|].
      destruct rest as [|y r']; [done|].
      destruct (is_char dot y) eqn:Hy; [|done].
      apply N.eqb_eq in Hy. subst y.
      destruct r' as [|c r]; [done|].
      simpl. by rewrite (Hnf eq_refl c r eq_refl).
    + rewrite <- app_assoc.
      rewrite (span_unique is_digit ip ((dot :: e :: fp) ++ rest) Aip)
        by done.
      destruct ip as [|d ip]; [done|].
      cbn [app]. change (is_char dot dot) with true. cbv iota.
      change (e :: fp ++ rest) with ((e :: fp) ++ rest).
      by rewrite (span_unique is_digit (e :: fp) rest Afp Hstop).
Qed.

Lemma pistes_at_none s : pistes_at s = None <-> stops is_digit s.
Proof.
  unfold pistes_at. destruct s as [|x s]; [done|]. simpl.
  destruct (is_digit x); [|done].
  destruct (span is_digit s) as [ip [|y r']]; [done|].
  destruct (is_char dot y); [|done].
  by destruct (span is_digit r') as [[|e fp] rest'].
Qed.

Lemma pistes_find_first s g :
  pistes_find s = Some g <->
  exists ip fp, g = numeral_text ip fp /\ first_decimal s ip fp.
Proof.
  split.
  - revert g. induction s as [|x s IH]; intros g; cbn [pistes_find]; [done|].
    destruct (pistes_at (x :: s)) as [[g1 rest]|] eqn:E.
    + intros [= <-]. pose proof (pistes_at_app _ _ _ E) as Hs.
      apply pistes_at_numeral in E as (ip & fp & -> & Hn).
      exists ip, fp. split; [done|]. exists [], rest.
      split; [constructor|]. split; [done|]. by rewrite <- Hs.
    + intros H.
      destruct (IH _ H) as (ip & fp & -> & pre & rest & Hp & -> & Hn).
      exists ip, fp. split; [done|]. exists (x :: pre), rest.
      split; [|done]. constructor; [|done].
      apply pistes_at_none in E. simpl in E. by rewrite E.
  - intros (ip & fp & -> & pre & rest & Hp & -> & Hn).
    induction Hp as [|x pre Hx Hp IH].
    + simpl. assert (pistes_at (numeral_text ip fp ++ rest)
                     = Some (numeral_text ip fp, rest)) as E
        by (apply pistes_at_numeral; eauto).
      destruct (numeral_text ip fp ++ rest); cbn [pistes_find]; by rewrite E.
    + rewrite <- app_comm_cons. cbn [pistes_find].
      assert (pistes_at (x :: pre ++ numeral_text ip fp ++ rest) = None)
        as -> by (apply pistes_at_none; simpl; by destruct (is_digit x)).
      exact IH.
Qed.


(** [parseFloat] reads a captured numeral exactly. *)
Lemma parseFloat_numeral ip fp :
  digits ip -> all_of is_digit fp ->
  parseFloat (numeral_text ip fp) = Fin (numeral_value ip fp).
Proof.
  intros [Hne Aip] Afp.
  destruct ip as [|d ip]; [done|].
  assert (is_digit d = true) as Hd by (by inversion Aip).
  assert (parseFloat (numeral_text (d :: ip) fp)
          = parseFloat_unsigned (numeral_text (d :: ip) fp)) as ->.
  { unfold parseFloat. destruct fp; cbn [numeral_text app].
    - assert ((d =? 45) = false) as -> by (revert Hd; class_facts).
      by assert ((d =? 43) = false) as -> by (revert Hd; class_facts).
    - assert ((d =? 45) = false) as -> by (revert Hd; class_facts).
      by assert ((d =? 43) = false) as -> by (revert Hd; class_facts). }
  unfold parseFloat_unsigned, numeral_value.
  destruct fp as [|e fp]; cbn [numeral_text].
  - rewrite <- (app_nil_r (d :: ip)) at 1.
    by rewrite (span_unique is_digit (d :: ip) [] Aip).
  - rewrite (span_unique is_digit (d :: ip) (dot :: e :: fp) Aip) by done.
    change (dot =? dot) with true. cbv iota.
    rewrite <- (app_nil_r (e :: fp)) at 1.
    by rewrite (span_unique is_digit (e :: fp) [] Afp).
Qed.

(** ** The lifts-open filter *)





Lemma lifts_find_complete pre s' o t rest :
  lifts_occurrence s' o t rest -> is_Some (lifts_find (pre ++ s')).
Proof.
  intros Hocc. induction pre as [|x pre IH]; simpl.
  - destruct (lifts_at_complete _ _ _ _ Hocc) as [[[o1 t1] r1] E].
    destruct s'; cbn [lifts_find]; rewrite E; by eexists.
  - destruct (lifts_at (x :: pre ++ s')) as [[[o1 t1] r1]|]; [by eexists|done].
Qed.

Lemma parseInt_digits ds :
  digits ds -> parseInt ds = Fin (inject_Z (Z.of_N (digits_val ds))).
Proof.
  intros [Hne Hall]. unfold parseInt.
  rewrite <- (app_nil_r ds) at 1.
  rewrite (span_unique is_digit ds [] Hall) by done.
  by destruct ds.
Qed.

Lemma lifts_first_digits s o t : lifts_first s o t -> digits o /\ digits t.
Proof.
  intros (pre & s' & rest & _ & (w1 & w2 & _ & Ho & _ & _ & Ht) & _). done.
Qed.

(** A positive count over a total of zero is Infinity. *)
Lemma ratio_total_zero o t :
  digits o -> digits t ->
  parseInt t = Fin 0 -> parseInt o <> Fin 0 ->
  num_div (parseInt o) (parseInt t) = PosInf.
Proof.
  intros Ho Ht Et Eo. rewrite Et. rewrite (parseInt_digits o Ho) in *.
  destruct (digits_val o) as [|n]; [done|]. reflexivity.
Qed.

(** C10, as stated, fails: for the lift string "0/0" the pattern matches
    with both groups "0", the parsed total is 0, the ratio is NaN and not
    Infinity, and the record fails the filter. *)
Lemma zero_over_zero_fails :
  lifts_first (lit "0/0") (lit "0") (lit "0")
  /\ parseInt (lit "0") = Fin 0
  /\ num_div (parseInt (lit "0")) (parseInt (lit "0")) = NaN
  /\ hasEnoughLiftsOpen (resort_with_lifts (Some (lit "0/0"))) = false
  /\ ~ total_zero_always_passes.
Proof.
  assert (lifts_first (lit "0/0") (lit "0") (lit "0")) as Hf
    by (apply lifts_find_first; vm_compute; reflexivity).
  repeat split; try done.
  intros H.
  destruct (H (resort_with_lifts (Some (lit "0/0"))) (lit "0/0")
              (lit "0") (lit "0") eq_refl Hf eq_refl) as [H1 H2].
  vm_compute in H2. discriminate H2.
Qed.

(** C10, amended. The lift pattern is not anchored: a string that
    contains <digits>/<digits> anywhere is matched ("12/14 open" is
    accepted).  When the parsed total is 0 and the parsed open count is
    not 0 ("3/0"), the ratio is Infinity, which is greater than 0.85, and
    the record passes; when both are 0 ("0/0") the ratio is NaN and the
    record fails. *)
Theorem lifts_unanchored_total_zero :
  (forall pre o t post,
     digits o -> digits t ->
     is_Some (str_match (pre ++ o ++ slash :: t ++ post) lifts_re))
  /\ hasEnoughLiftsOpen (resort_with_lifts (Some (lit "12/14 open"))) = true
  /\ (forall resort s o t,
        report_lifts resort = Some s -> lifts_first s o t ->
        parseInt t = Fin 0 -> parseInt o <> Fin 0 ->
        num_div (parseInt o) (parseInt t) = PosInf
        /\ hasEnoughLiftsOpen resort = true)
  /\ hasEnoughLiftsOpen (resort_with_lifts (Some (lit "3/0"))) = true
  /\ num_div (parseInt (lit "0")) (parseInt (lit "0")) = NaN
  /\ hasEnoughLiftsOpen (resort_with_lifts (Some (lit "0/0"))) = false.
Proof.
  split; [|split; [|split]].
  - intros pre o t post Ho Ht.
    assert (lifts_occurrence (o ++ slash :: t ++ post) o t post) as Hocc.
    { exists [], []. repeat split; try apply Ho; try apply Ht; constructor. }
    destruct (lifts_find_complete pre _ _ _ _ Hocc) as [[o1 t1] E].
    pose proof (str_match_lifts (pre ++ o ++ slash :: t ++ post)) as H.
    rewrite E in H. destruct H as (m & -> & _). by eexists.
  - vm_compute. reflexivity.
  - intros resort s o t Hs Hf Et Eo.
    destruct (lifts_first_digits _ _ _ Hf) as [Ho Ht].
    pose proof (ratio_total_zero o t Ho Ht Et Eo) as Hr.
    split; [done|].
    rewrite hasEnoughLiftsOpen_find, Hs.
    apply lifts_find_first in Hf. by rewrite Hf, Hr.
  - repeat split; vm_compute; reflexivity.
Qed.

Lemma lifts_unanchored_total_zero_witness :
  is_Some (str_match (lit "open: 12/14 lifts") lifts_re)
  /\ num_div (parseInt (lit "3")) (parseInt (lit "0")) = PosInf
  /\ hasEnoughLiftsOpen (resort_with_lifts (Some (lit "3/0"))) = true.
Proof.
  destruct lifts_unanchored_total_zero as (H1 & _ & H3 & _).
  split.
  - apply (H1 (lit "open: ") (lit "12") (lit "14") (lit " lifts")).
    + split; [done | repeat constructor].
    + split; [done | repeat constructor].
  - apply (H3 (resort_with_lifts (Some (lit "3/0"))) (lit "3/0")).
    + reflexivity.
    + apply lifts_find_first. vm_compute. reflexivity.
    + reflexivity.
    + discriminate.
Defined.

(** ** The minimum-piste filter *)









(** ** Sorting *)

Lemma or_infinity_ordinary x : ordinary (or_infinity x).
Proof. by destruct x. Qed.

Lemma sortValue_ordinary sortType a : ordinary (sortValue sortType a).
Proof. destruct sortType; apply or_infinity_ordinary. Qed.

Lemma Qltb_lt x y : Qltb x y = true <-> (x < y)%Q.
Proof.
  unfold Qltb. rewrite negb_true_iff.
  destruct (Qle_bool y x) eqn:E.
  - apply Qle_bool_iff in E. split; [done | lra].
  - split; [|done]. intros _.
    destruct (Qlt_le_dec x y) as [H|H]; [done|].
    apply Qle_bool_iff in H. congruence.
Qed.

Lemma Qltb_ge x y : Qltb x y = false <-> (y <= x)%Q.
Proof.
  unfold Qltb. rewrite negb_false_iff. apply Qle_bool_iff.
Qed.

(** On sort values the sign of the difference is the order. *)
Lemma sub_positive a b :
  ordinary a -> ordinary b ->
  num_gt (num_sub a b) (Fin 0) = num_lt b a.
Proof.
  destruct a as [x| | |], b as [y| | |]; try done. intros _ _.
  unfold num_gt, num_sub, num_lt.
  destruct (Qltb y x) eqn:E.
  - apply Qltb_lt in E. apply Qltb_lt. lra.
  - apply Qltb_ge in E. apply Qltb_ge. lra.
Qed.

Lemma num_lt_le a b :
  ordinary a -> ordinary b -> num_lt a b = true -> num_le a b = true.
Proof.
  destruct a as [x| | |], b as [y| | |]; try done. intros _ _.
  unfold num_lt, num_le. rewrite Qltb_lt, Qle_bool_iff. lra.
Qed.

Lemma num_not_lt_le a b :
  ordinary a -> ordinary b -> num_lt b a = false -> num_le a b = true.
Proof.
  destruct a as [x| | |], b as [y| | |]; try done. intros _ _.
  unfold num_lt, num_le. rewrite Qltb_ge, Qle_bool_iff. lra.
Qed.

Lemma num_le_trans a b c :
  num_le a b = true -> num_le b c = true -> num_le a c = true.
Proof.
  destruct a as [x| | |], b as [y| | |], c as [z| | |]; try done.
  unfold num_le. rewrite !Qle_bool_iff. lra.
Qed.


Section SortByValue.
Context {A : Type} (val : A -> jsnum).
Hypothesis val_ordinary : forall a, ordinary (val a).

Lemma after_by_value x y : after (by_value val) x y = num_lt (val y) (val x).
Proof. by apply sub_positive. Qed.

Lemma sort_insert_perm x l : sort_insert (by_value val) x l ≡ₚ x :: l.
Proof.
  induction l as [|y l IH]; simpl; [done|].
  destruct (after (by_value val) x y); [|done].
  rewrite IH. apply Permutation_swap.
Qed.

Lemma array_sort_perm l : array_sort (by_value val) l ≡ₚ l.
Proof.
  induction l as [|x l IH]; simpl; [done|].
  by rewrite sort_insert_perm, IH.
Qed.

Lemma sort_insert_sorted x l :
  StronglySorted (le_value val) l ->
  StronglySorted (le_value val) (sort_insert (by_value val) x l).
Proof.
  induction 1 as [|y l Hs IH Hy]; simpl.
  - repeat constructor.
  - rewrite after_by_value. destruct (num_lt (val y) (val x)) eqn:E.
    + constructor; [done|].
      rewrite sort_insert_perm. constructor; [|done].
      by apply num_lt_le.
    + assert ((le_value val) x y) as Hxy by by apply num_not_lt_le.
      constructor; [by constructor|]. constructor; [done|].
      eapply Forall_impl; [exact Hy|]. intros z Hz.
      by apply (num_le_trans _ (val y)).
Qed.

Lemma array_sort_sorted l : StronglySorted (le_value val) (array_sort (by_value val) l).
Proof.
  induction l as [|x l IH]; simpl; [constructor|].
  by apply sort_insert_sorted.
Qed.



End SortByValue.

(** ** The visible list *)




Lemma filter_sublist {A} (f : A -> bool) (l : list A) :
  sublist (List.filter f l) l.
Proof.
  induction l as [|x l IH]; simpl; [done|].
  destruct (f x); by constructor.
Qed.


(** ** Arrays in the store *)

Lemma filteredAndSortedResorts_ref_spec resorts sortType filters h l :
  h !! resorts = Some l ->
  let out := fresh (dom h) in
  out <> resorts
  /\ h !! out = None
  /\ filteredAndSortedResorts_ref resorts sortType filters h
     = Some (out, <[out := filteredAndSortedResorts l sortType filters]> h).
Proof.
  intros Hl out.
  assert (h !! out = None) as Hout
    by (apply not_elem_of_dom; apply is_fresh).
  split; [congruence|]. split; [done|].
  unfold filteredAndSortedResorts_ref, array_filter_ref, array_sort_ref.
  rewrite Hl. fold out. rewrite lookup_insert_eq.
  by rewrite insert_insert_eq.
Qed.

(** C3. Computing the visible list writes one new array and leaves the
    array of accumulated results as it was, in arrival order; the list
    before sorting is a sublist of the accumulated results, so its
    members are in their accumulated order, and the visible list is a
    rearrangement of it; and computing it again from the same results,
    filters and sort type gives the same list. *)
Theorem visible_list_is_a_view :
  forall (h : store) (resorts : nat) (l : list Resort)
         (sortType : SortType) (filters : Filters),
    h !! resorts = Some l ->
    exists out h',
      filteredAndSortedResorts_ref resorts sortType filters h = Some (out, h')
      /\ h' !! resorts = Some l
      /\ (forall a, a <> out -> h' !! a = h !! a)
      /\ h !! out = None
      /\ h' !! out = Some (filteredAndSortedResorts l sortType filters)
      /\ sublist (List.filter (keeps filters) l) l
      /\ filteredAndSortedResorts l sortType filters
         ≡ₚ List.filter (keeps filters) l
      /\ (forall r, r ∈ filteredAndSortedResorts l sortType filters -> r ∈ l)
      /\ exists out2 h'',
           filteredAndSortedResorts_ref resorts sortType filters h'
           = Some (out2, h'')
           /\ h'' !! out2 = h' !! out
           /\ h'' !! out = h' !! out
           /\ h'' !! resorts = Some l.
Proof.
  intros h resorts l sortType filters Hl.
  destruct (filteredAndSortedResorts_ref_spec resorts sortType filters h l Hl)
    as (Hne & Hfresh & Hrun).
  set (out := fresh (dom h)) in *.
  set (visible := filteredAndSortedResorts l sortType filters) in *.
  set (h' := <[out := visible]> h) in *.
  assert (h' !! resorts = Some l) as Hl'
    by (unfold h'; by rewrite lookup_insert_ne).
  pose proof (array_sort_perm (sortValue sortType)
                (List.filter (keeps filters) l)) as Hperm.
  pose proof (filter_sublist (keeps filters) l) as Hsub.
  change (array_sort (by_value (sortValue sortType))
            (List.filter (keeps filters) l)) with visible in Hperm.
  exists out, h'. repeat split; try done.
  - intros a Ha. unfold h'. by rewrite lookup_insert_ne.
  - unfold h'. by rewrite lookup_insert_eq.
  - intros r Hr. fold visible in Hperm. rewrite Hperm in Hr.
    apply list_elem_of_In, filter_In in Hr. apply list_elem_of_In, Hr.
  - destruct (filteredAndSortedResorts_ref_spec resorts sortType filters h' l
                Hl') as (Hne2 & Hfresh2 & Hrun2).
    fold visible in Hrun2.
    exists (fresh (dom h')), (<[fresh (dom h') := visible]> h').
    repeat split; try done.
    + rewrite lookup_insert_eq. unfold h'. by rewrite lookup_insert_eq.
    + rewrite lookup_insert_ne; [done|].
      intros E. rewrite E in Hfresh2. unfold h' in Hfresh2.
      by rewrite lookup_insert_eq in Hfresh2.
    + by rewrite lookup_insert_ne.
Qed.

Lemma visible_list_is_a_view_witness :
  exists out h',
    filteredAndSortedResorts_ref 0 proximity no_filters sample_store
    = Some (out, h')
    /\ h' !! 0%nat = Some [sample_a; sample_b; sample_c; sample_d]
    /\ h' !! out = Some [sample_c; sample_a; sample_d; sample_b].
Proof.
  destruct (visible_list_is_a_view sample_store 0
              [sample_a; sample_b; sample_c; sample_d] proximity no_filters
              eq_refl)
    as (out & h' & H1 & H2 & _ & _ & H5 & _).
  exists out, h'. split; [exact H1|]. split; [exact H2|]. exact H5.
Defined.

Example sort_by_driving :
  filteredAndSortedResorts [sample_a; sample_b; sample_c; sample_d]
    driving no_filters
  = [sample_b; sample_d; sample_a; sample_c].
Proof. vm_compute. reflexivity. Qed.

(** ** What a call awaits *)

Lemma run_pending m w :
  pending (run m w) = pending w ++ option_list (suspends m).
Proof.
  revert w. induction m as [a|e|f k IH|msg k IH|msg e k IH|req k _|q k _];
    intros w; simpl; try rewrite IH; simpl; try done.
  - by rewrite app_nil_r.
  - by rewrite app_nil_r.
Qed.

Lemma suspends_page cl isNewSearch target :
  suspends (guarded (loadResorts_page cl isNewSearch target))
  = Some (PendingResorts (page_request cl isNewSearch target)
            (page_continuation cl isNewSearch target)).
Proof. reflexivity. Qed.


(** A failed fetch is logged twice and changes nothing but [loading]. *)
Lemma page_continuation_failed cl isNewSearch target r w :
  fetch_failed r ->
  run (page_continuation cl isNewSearch target r) w
  = with_state (setLoading false)
      (emit (Logged (lit "Error loading resorts") (fetch_error r))
         (emit (Logged (lit "Failed to fetch resort data:") (fetch_error r))
            w)).
Proof.
  destruct r as [e|[o st [data|]]]; simpl.
  - done.
  - intros [->|?]; [done|done].
  - intros _. by destruct o.
Qed.

Lemma loadResorts_unfold cl isNewSearch :
  loadResorts cl isNewSearch
  = Update (setLoading true)
      (guarded (loadResorts_try cl isNewSearch (userLocation cl))).
Proof. reflexivity. Qed.

(** With a location at hand both geocoding blocks are skipped. *)
Lemma loadResorts_try_resolved cl isNewSearch target :
  loadResorts_try cl isNewSearch (Some target)
  = loadResorts_page cl isNewSearch target.
Proof.
  unfold loadResorts_try. by destruct (negb (isUsingGPS cl) && typed_text cl).
Qed.

Lemma must_geocode_true cl :
  must_geocode cl = true <->
  isUsingGPS cl = false /\ typed_text cl = true /\ userLocation cl = None.
Proof.
  unfold must_geocode.
  destruct (isUsingGPS cl), (typed_text cl), (userLocation cl);
    simpl; split; try done; intros (? & ? & ?); done.
Qed.

(** Without a location and without text to geocode the call ends at
    once; the second geocoding block is never entered. *)
Lemma loadResorts_try_idle cl isNewSearch :
  userLocation cl = None -> must_geocode cl = false ->
  loadResorts_try cl isNewSearch None = set_state (setLoading false).
Proof.
  unfold must_geocode, loadResorts_try, loadResorts_fallback.
  intros ->. by destruct (isUsingGPS cl), (typed_text cl).
Qed.

Lemma loadResorts_try_geocode cl isNewSearch :
  must_geocode cl = true ->
  guarded (loadResorts_try cl isNewSearch None)
  = AwaitGeocode (locationInput cl) (geocode_continuation cl isNewSearch).
Proof.
  intros (Hg & Ht & _)%must_geocode_true.
  unfold geocode_continuation, loadResorts_try. rewrite Hg, Ht. reflexivity.
Qed.

Lemma geocode_continuation_found cl isNewSearch r g w :
  must_geocode cl = true -> geocode_result r = Some g ->
  run (geocode_continuation cl isNewSearch r) w
  = run (guarded (loadResorts_page cl isNewSearch g))
      (with_state (setUserLocation (Some g)) w).
Proof.
  intros (Hg & Ht & _)%must_geocode_true.
  unfold geocode_continuation, loadResorts_try. rewrite Hg, Ht.
  destruct r as [e|[o st [[|hit data]|]]]; try done.
  intros [= <-]. reflexivity.
Qed.

Lemma geocode_continuation_not_found cl isNewSearch r w :
  must_geocode cl = true -> geocode_result r = None ->
  run (geocode_continuation cl isNewSearch r) w
  = with_state (fun s => setLoading false (setLoading false s))
      (emit (Alerted (lit "Could not find location: " ++ locationInput cl))
         (foldl (fun w o => emit o w) w (geocode_log r))).
Proof.
  intros (Hg & Ht & _)%must_geocode_true.
  unfold geocode_continuation, loadResorts_try. rewrite Hg, Ht.
  by destruct r as [e|[o st [[|hit data]|]]].
Qed.

Lemma suspends_geocode_continuation cl isNewSearch r :
  must_geocode cl = true ->
  suspends (geocode_continuation cl isNewSearch r)
  = match geocode_result r with
    | Some g =>
        Some (PendingResorts (page_request cl isNewSearch g)
                (page_continuation cl isNewSearch g))
    | None => None
    end.
Proof.
  intros (Hg & Ht & _)%must_geocode_true.
  unfold geocode_continuation, loadResorts_try. rewrite Hg, Ht.
  by destruct r as [e|[o st [[|hit data]|]]].
Qed.

Lemma suspends_page_continuation cl isNewSearch target r :
  suspends (page_continuation cl isNewSearch target r) = None.
Proof.
  destruct r as [e|[o st [data|]]]; try done; by destruct o.
Qed.

(** The first thing a call awaits. *)
Lemma suspends_loadResorts cl isNewSearch :
  suspends (loadResorts cl isNewSearch)
  = match userLocation cl with
    | Some target =>
        Some (PendingResorts (page_request cl isNewSearch target)
                (page_continuation cl isNewSearch target))
    | None =>
        if must_geocode cl then
          Some (PendingGeocode (locationInput cl)
                  (geocode_continuation cl isNewSearch))
        else None
    end.
Proof.
  rewrite loadResorts_unfold. cbn [suspends].
  destruct (userLocation cl) as [target|] eqn:Hu.
  - by rewrite loadResorts_try_resolved.
  - destruct (must_geocode cl) eqn:Hm.
    + by rewrite loadResorts_try_geocode.
    + by rewrite loadResorts_try_idle.
Qed.

(** Every exchange a call of [loadResorts] awaits: a page fetch for a
    location, or the geocoding of the typed text. *)
Lemma loadResorts_awaits cl isNewSearch p :
  awaited_by (loadResorts cl isNewSearch) p ->
  (exists target,
     p = PendingResorts (page_request cl isNewSearch target)
           (page_continuation cl isNewSearch target))
  \/ (must_geocode cl = true
      /\ p = PendingGeocode (locationInput cl)
               (geocode_continuation cl isNewSearch)).
Proof.
  intros H. inversion H as [m p1 Hs|m p0 a m' p1 Hs Hr Hn]; subst.
  - rewrite suspends_loadResorts in Hs.
    destruct (userLocation cl) as [target|]; [injection Hs as <-; eauto|].
    destruct (must_geocode cl); [injection Hs as <-; eauto|done].
  - rewrite suspends_loadResorts in Hs.
    destruct (userLocation cl) as [target|].
    + injection Hs as <-. destruct a as [r|r]; [|done].
      injection Hr as <-.
      inversion Hn as [m p2 Hs2|m p2 a2 m2 p3 Hs2 _ _]; subst;
        by rewrite suspends_page_continuation in Hs2.
    + destruct (must_geocode cl) eqn:Hm; [|done].
      injection Hs as <-. destruct a as [r|r]; [done|].
      injection Hr as <-.
      inversion Hn as [m p2 Hs2|m p2 a2 m2 p3 Hs2 Hr2 Hn2]; subst;
        rewrite (suspends_geocode_continuation _ _ _ Hm) in Hs2;
        destruct (geocode_result r) as [g|]; try done;
        injection Hs2 as <-; [eauto|].
      destruct a2 as [r2|r2]; [|done]. injection Hr2 as <-.
      inversion Hn2 as [m p4 Hs4|m p4 a4 m4 p5 Hs4 _ _]; subst;
        by rewrite suspends_page_continuation in Hs4.
Qed.

(** ** Failure of the geocoding and of the fetch *)

Lemma trace_emit_all w log :
  trace (foldl (fun w o => emit o w) w log) = trace w ++ log
  /\ state (foldl (fun w o => emit o w) w log) = state w
  /\ pending (foldl (fun w o => emit o w) w log) = pending w.
Proof.
  revert w. induction log as [|o log IH]; intros w; simpl.
  - by rewrite app_nil_r.
  - destruct (IH (emit o w)) as (-> & -> & ->). simpl.
    by rewrite <- app_assoc.
Qed.

(** C8. When the text of the location field has to be geocoded (no GPS,
    a typed text other than the GPS label, no location resolved yet),
    [loadResorts] first asks the geocoding service for that text and
    nothing else.  If the service answers with no match (an empty
    array, or an answer that fails or does not parse), the call ends:
    it alerts "Could not find location: " followed by the text, switches
    [loading] off, issues no resort fetch and leaves the accumulated
    results and the rest of the state as they are. *)
Theorem unresolved_location_aborts :
  forall (cl : AppState) (isNewSearch : bool) (w : World),
    must_geocode cl = true ->
    exists k,
      run (loadResorts cl isNewSearch) w
      = {| state := setLoading true (state w);
           pending := pending w ++ [PendingGeocode (locationInput cl) k];
           trace := trace w ++ [RequestedGeocode (locationInput cl)] |}
      /\ forall (w2 : World) (i : nat) (r : HttpResult (list GeoHit)),
           pending w2 !! i = Some (PendingGeocode (locationInput cl) k) ->
           geocode_result r = None ->
           exists w3,
             arrive i (GeocodeAnswer r) w2 = Some w3
             /\ state w3 = setLoading false (state w2)
             /\ resorts (state w3) = resorts (state w2)
             /\ loading (state w3) = false
             /\ pending w3 = delete i (pending w2)
             /\ trace w3
                = trace w2 ++ geocode_log r
                  ++ [Alerted (lit "Could not find location: "
                               ++ locationInput cl)]
             /\ (r = no_match ->
                 trace w3
                 = trace w2
                   ++ [Alerted (lit "Could not find location: "
                                ++ locationInput cl)]).
Proof.
  intros cl isNewSearch w Hm.
  exists (geocode_continuation cl isNewSearch). split.
  - rewrite loadResorts_unfold.
    pose proof Hm as (_ & _ & ->)%must_geocode_true.
    cbn [run]. by rewrite (loadResorts_try_geocode _ _ Hm).
  - intros w2 i r Hp Hr. unfold arrive. rewrite Hp. cbn [resume].
    rewrite (geocode_continuation_not_found _ _ _ _ Hm Hr).
    eexists. split; [reflexivity|].
    destruct (trace_emit_all
                {| state := state w2; pending := delete i (pending w2);
                   trace := trace w2 |} (geocode_log r)) as (Ht & Ha & Hq).
    cbn [with_state emit state pending trace]. rewrite Ht, Ha, Hq.
    cbn [state pending trace]. rewrite <- app_assoc.
    repeat split; try done. by intros ->.
Qed.

Lemma unresolved_location_aborts_witness :
  exists w3,
    arrive 0 (GeocodeAnswer no_match) (handleSearch (start_world typed_nowhere))
    = Some w3
    /\ resorts (state w3) = []
    /\ loading (state w3) = false
    /\ pending w3 = []
    /\ trace w3
       = [RequestedGeocode (lit "Nowhereville123xyz");
          Alerted (lit "Could not find location: Nowhereville123xyz")].
Proof.
  destruct (unresolved_location_aborts typed_nowhere true
              (with_state (setShouldScrollToResults true)
                 (start_world typed_nowhere)) eq_refl)
    as (k & Hrun & Hk).
  change (run (loadResorts typed_nowhere true)
            (with_state (setShouldScrollToResults true)
               (start_world typed_nowhere)))
    with (handleSearch (start_world typed_nowhere)) in Hrun.
  destruct (Hk (handleSearch (start_world typed_nowhere)) 0%nat no_match)
    as (w3 & Ha & _ & Hres & Hl & Hp & _ & Ht).
  - by rewrite Hrun.
  - reflexivity.
  - exists w3. rewrite Hrun in *. repeat split; try done.
    by rewrite (Ht eq_refl).
Defined.

(** C9. Whenever a fetch of resort data that [loadResorts] awaits fails
    (the network, a status that is not 2xx, a body that does not parse),
    the failure is caught: it is logged by [fetchResorts] and by
    [loadResorts], [loading] is switched off, the accumulated results
    and the rest of the state stay as they were when the answer came
    in, and no rejection is left unhandled. *)
Theorem fetch_failure_is_contained :
  forall (cl : AppState) (isNewSearch : bool) (req : SearchParams)
         (k : HttpResult ResortsResponse -> Async unit)
         (w : World) (i : nat) (r : HttpResult ResortsResponse),
    awaited_by (loadResorts cl isNewSearch) (PendingResorts req k) ->
    pending w !! i = Some (PendingResorts req k) ->
    fetch_failed r ->
    exists w',
      arrive i (ResortsAnswer r) w = Some w'
      /\ resorts (state w') = resorts (state w)
      /\ state w' = setLoading false (state w)
      /\ loading (state w') = false
      /\ pending w' = delete i (pending w)
      /\ trace w'
         = trace w
           ++ [Logged (lit "Failed to fetch resort data:") (fetch_error r);
               Logged (lit "Error loading resorts") (fetch_error r)]
      /\ forall e, UnhandledRejection e ∉ trace w -> UnhandledRejection e ∉ trace w'.
Proof.
  intros cl isNewSearch req k w i r Ha Hp Hf.
  apply loadResorts_awaits in Ha as [(target & [= -> ->])|(_ & [=])].
  unfold arrive. rewrite Hp. cbn [resume].
  rewrite (page_continuation_failed _ _ _ _ _ Hf).
  eexists. split; [reflexivity|].
  cbn [with_state emit state pending trace]. rewrite <- app_assoc.
  repeat split; try done.
  intros e He. rewrite elem_of_app.
  intros [?|H]; [done|].
  apply elem_of_cons in H as [?|H]; [done|].
  apply elem_of_cons in H as [?|H]; [done|].
  by apply elem_of_nil in H.
Qed.

Lemma fetch_failure_is_contained_witness :
  exists w',
    arrive 0 (ResortsAnswer (Rejected (TypeError (lit "Failed to fetch"))))
      (handleSearch (start_world gps_ready))
    = Some w'
    /\ resorts (state w') = []
    /\ loading (state w') = false.
Proof.
  destruct (fetch_failure_is_contained gps_ready true
              (page_request gps_ready true
                 {| lat := Fin (465 # 10); lng := Fin (75 # 10) |})
              (page_continuation gps_ready true
                 {| lat := Fin (465 # 10); lng := Fin (75 # 10) |})
              (handleSearch (start_world gps_ready)) 0%nat
              (Rejected (TypeError (lit "Failed to fetch"))))
    as (w' & H1 & H2 & _ & H4 & _).
  - apply awaited_first. reflexivity.
  - reflexivity.
  - exact I.
  - exists w'. split; [exact H1|]. split; [exact H2 | exact H4].
Defined.

(** ** Pages *)

Lemma run_loadResorts_resolved cl isNewSearch target w :
  userLocation cl = Some target ->
  run (loadResorts cl isNewSearch) w
  = {| state := setLoading true (state w);
       pending :=
         pending w
         ++ [PendingResorts (page_request cl isNewSearch target)
               (page_continuation cl isNewSearch target)];
       trace := trace w
                ++ [RequestedResorts (page_request cl isNewSearch target)] |}.
Proof.
  intros Hu. rewrite loadResorts_unfold, Hu, loadResorts_try_resolved.
  reflexivity.
Qed.

Lemma handleSearch_resolved w target :
  userLocation (state w) = Some target ->
  handleSearch w
  = {| state := setLoading true (setShouldScrollToResults true (state w));
       pending :=
         pending w
         ++ [PendingResorts (page_request (state w) true target)
               (page_continuation (state w) true target)];
       trace := trace w
                ++ [RequestedResorts (page_request (state w) true target)] |}.
Proof.
  intros Hu. unfold handleSearch.
  change (run (set_state (setShouldScrollToResults true);;
               loadResorts (state w) true) w)
    with (run (loadResorts (state w) true)
            (with_state (setShouldScrollToResults true) w)).
  by rewrite (run_loadResorts_resolved _ _ target).
Qed.









(** ** Two calls at once *)


(** ** The callback ref stays current *)

Lemma same_deps_iff a b :
  same_deps a b = true <-> loading a = loading b /\ hasMore a = hasMore b.
Proof.
  unfold same_deps. rewrite andb_true_iff, !eqb_true_iff. done.
Qed.

Lemma same_deps_refl a : same_deps a a = true.
Proof. by apply same_deps_iff. Qed.

Lemma observing_Some b o :
  observing b = Some o <->
  observer b = Some o /\ exists n, obs_target o = Some n.
Proof.
  unfold observing. destruct (observer b) as [o'|].
  - destruct (obs_target o') as [n|] eqn:E.
    + split; [intros [= <-]; eauto | by intros [H _]].
    + split; [done|]. intros [[= <-] [n Hn]]. congruence.
  - split; [done | by intros [H _]].
Qed.

Lemma lastResortElementRef_null cl observer o :
  lastResortElementRef cl None observer = Some o ->
  (exists n, obs_target o = Some n) ->
  loading cl = true /\ observer = Some o.
Proof.
  unfold lastResortElementRef. destruct (loading cl); [done|].
  intros [= <-] [n Hn]. done.
Qed.

(** After the old callback was called with null no element is
    observed. *)
Lemma detach_not_observing b o :
  ref_current b -> detach b = Some o -> obs_target o = None.
Proof.
  intros (Hdeps & _ & Hobs) Hd.
  apply same_deps_iff in Hdeps as [Hl _].
  destruct (obs_target o) as [n|] eqn:Hn; [|done]. exfalso.
  unfold detach in Hd. destruct (sentinel (state (world b))) eqn:Hs.
  - destruct (lastResortElementRef_null _ _ _ Hd) as [Hld Ho2]; [eauto|].
    destruct (Hobs o) as (H1 & _); [apply observing_Some; eauto|].
    congruence.
  - destruct (Hobs o) as (_ & H2 & _); [apply observing_Some; eauto|].
    congruence.
Qed.

Lemma commit_ref_current b w' :
  ref_current b ->
  (same_deps (memo b) (state w') = true ->
   page (state w') = page (state (world b))) ->
  ref_current (commit b w').
Proof.
  intros Hb Hstable. pose proof Hb as (Hdeps & Hpage & Hobs).
  apply same_deps_iff in Hdeps as [Hl Hh].
  pose proof (detach_not_observing b) as Hdetached.
  unfold commit.
  destruct (same_deps (memo b) (state w')) eqn:Hsame; cbn [andb].
  - pose proof (Hstable eq_refl) as Hp.
    apply same_deps_iff in Hsame as [Hl' Hh'].
    assert (same_deps (memo b) (state w') = true) as Hsame
      by by apply same_deps_iff.
    case_bool_decide as Hnode.
    + split; [done|]. split; [cbn; congruence|].
      intros o Ho. unfold observing in Ho. cbn [observer] in Ho.
      destruct (Hobs o Ho) as (H1 & H2 & H3 & H4).
      cbn [world]. repeat split; congruence.
    + split; [done|]. split; [cbn; congruence|].
      intros o Ho. apply observing_Some in Ho as [Ho [n Hn]].
      cbn [observer] in Ho. cbn [world].
      destruct (sentinel (state w')) as [n'|] eqn:Hs'.
      * unfold lastResortElementRef in Ho.
        destruct (loading (memo b)) eqn:Hlm.
        { rewrite (Hdetached o Hb Ho) in Hn. done. }
        injection Ho as <-. cbn. repeat split; congruence.
      * rewrite (Hdetached o Hb Ho) in Hn. done.
  - cbn [memo world observer]. split; [apply same_deps_refl|].
    split; [done|].
    intros o Ho. apply observing_Some in Ho as [Ho [n Hn]].
    cbn [observer] in Ho.
    destruct (sentinel (state w')) as [n'|] eqn:Hs'.
    + unfold lastResortElementRef in Ho.
      destruct (loading (state w')) eqn:Hlm.
      { rewrite (Hdetached o Hb Ho) in Hn. done. }
      injection Ho as <-. cbn. done.
    + rewrite (Hdetached o Hb Ho) in Hn. done.
Qed.

(** ** One call at a time *)

Lemma run_loadResorts_geocode cl isNewSearch w :
  must_geocode cl = true ->
  run (loadResorts cl isNewSearch) w
  = {| state := setLoading true (state w);
       pending := pending w
                  ++ [PendingGeocode (locationInput cl)
                        (geocode_continuation cl isNewSearch)];
       trace := trace w ++ [RequestedGeocode (locationInput cl)] |}.
Proof.
  intros Hm. rewrite loadResorts_unfold.
  pose proof Hm as (_ & _ & ->)%must_geocode_true.
  cbn [run]. by rewrite (loadResorts_try_geocode _ _ Hm).
Qed.

Lemma run_loadResorts_idle cl isNewSearch w :
  userLocation cl = None -> must_geocode cl = false ->
  run (loadResorts cl isNewSearch) w
  = with_state (fun s => setLoading false (setLoading false (setLoading true s))) w.
Proof.
  intros Hu Hm. rewrite loadResorts_unfold, Hu.
  by rewrite (loadResorts_try_idle _ _ Hu Hm).
Qed.

(** Starting a call when nothing is outstanding. *)
Lemma loadResorts_start cl isNewSearch w :
  pending w = [] ->
  one_call (run (loadResorts cl isNewSearch) w)
  /\ page (state (run (loadResorts cl isNewSearch) w)) = page (state w).
Proof.
  intros Hp.
  pose proof (suspends_loadResorts cl isNewSearch) as Hs.
  destruct (userLocation cl) as [target|] eqn:Hu.
  - rewrite (run_loadResorts_resolved _ _ target _ Hu). split; [|done].
    right. exists cl, isNewSearch. eexists. cbn. rewrite Hp.
    split; [reflexivity|]. split; [done|]. by apply awaited_first.
  - destruct (must_geocode cl) eqn:Hm.
    + rewrite (run_loadResorts_geocode _ _ _ Hm). split; [|done].
      right. exists cl, isNewSearch. eexists. cbn. rewrite Hp.
      split; [reflexivity|]. split; [done|]. by apply awaited_first.
    + rewrite (run_loadResorts_idle _ _ _ Hu Hm). split; [|done].
      left. by cbn.
Qed.

Lemma page_continuation_settles cl isNewSearch target r w :
  loading (state (run (page_continuation cl isNewSearch target r) w)) = false
  /\ pending (run (page_continuation cl isNewSearch target r) w) = pending w.
Proof.
  split.
  - destruct r as [e|[o st [data|]]]; try done; by destruct o.
  - by rewrite run_pending, suspends_page_continuation, app_nil_r.
Qed.

(** The arrival of the answer to the one outstanding exchange. *)
Lemma arrival_one_call w i a w' :
  one_call w -> arrive i a w = Some w' ->
  one_call w'
  /\ (loading (state w') = loading (state w) -> page (state w') = page (state w)).
Proof.
  intros [[Hp _]|(cl & isNewSearch & p & Hp & Hl & Ha)] Harr;
    unfold arrive in Harr; rewrite Hp in Harr.
  { by rewrite lookup_nil in Harr. }
  destruct i as [|i]; [|by rewrite lookup_cons, lookup_nil in Harr].
  cbn in Harr.
  pose proof Ha as Hcases.
  apply loadResorts_awaits in Hcases
    as [(target & ->)|(Hm & ->)].
  - destruct a as [r|r]; [|done]. injection Harr as <-.
    destruct (page_continuation_settles cl isNewSearch target r
                {| state := state w; pending := []; trace := trace w |})
      as [H1 H2].
    split; [by left|]. rewrite H1, Hl. done.
  - destruct a as [r|r]; [done|]. injection Harr as <-.
    destruct (geocode_result r) as [g|] eqn:Hg.
    + rewrite (geocode_continuation_found _ _ _ _ _ Hm Hg).
      split; [|done]. right. exists cl, isNewSearch. eexists.
      split; [reflexivity|]. split; [exact Hl|].
      apply (awaited_next _
               (PendingGeocode (locationInput cl)
                  (geocode_continuation cl isNewSearch))
               (GeocodeAnswer r) (geocode_continuation cl isNewSearch r)).
      * by rewrite suspends_loadResorts,
          (proj2 (proj2 (proj1 (must_geocode_true cl) Hm))), Hm.
      * reflexivity.
      * apply awaited_first.
        rewrite (suspends_geocode_continuation _ _ _ Hm), Hg. reflexivity.
    + rewrite (geocode_continuation_not_found _ _ _ _ Hm Hg).
      destruct (trace_emit_all
                  {| state := state w; pending := []; trace := trace w |}
                  (geocode_log r)) as (_ & Happ & Hpend).
      split; [left; cbn; by rewrite Hpend|].
      cbn. by rewrite Hl.
Qed.

(** An update of the state that leaves [loading] alone. *)
Lemma with_state_one_call f w :
  (forall s, loading (f s) = loading s) ->
  one_call w -> one_call (with_state f w).
Proof.
  intros Hf [[Hp Hl]|(cl & isNewSearch & p & Hp & Hl & Ha)].
  - left. cbn. by rewrite Hf.
  - right. exists cl, isNewSearch, p. cbn. by rewrite Hf.
Qed.

Ltac state_facts :=
  intros;
  unfold handleInputChange, handleClear, handleSuggestionClick,
    handleLocationSelect, handleRequestLocation, geolocation_success,
    geolocation_error, scroll_effect;
  repeat match goal with
         | |- context [if ?c then _ else _] => destruct c
         end;
  done.

Lemma handlers_keep_loading :
  (forall v s, loading (handleInputChange v s) = loading s)
  /\ (forall s, loading (handleClear s) = loading s)
  /\ (forall place s, loading (handleSuggestionClick place s) = loading s)
  /\ (forall available s,
        loading (handleRequestLocation available s) = loading s)
  /\ (forall position s, loading (geolocation_success position s) = loading s)
  /\ (forall s, loading (geolocation_error s) = loading s)
  /\ (forall s, loading (scroll_effect s) = loading s).
Proof. repeat split; state_facts. Qed.

Lemma handlers_keep_page :
  (forall v s, page (handleInputChange v s) = page s)
  /\ (forall s, page (handleClear s) = page s)
  /\ (forall place s, page (handleSuggestionClick place s) = page s)
  /\ (forall available s,
        page (handleRequestLocation available s) = page s)
  /\ (forall position s, page (geolocation_success position s) = page s)
  /\ (forall s, page (geolocation_error s) = page s)
  /\ (forall s, page (scroll_effect s) = page s).
Proof. repeat split; state_facts. Qed.

Lemma one_call_idle w : one_call w -> loading (state w) = false -> pending w = [].
Proof.
  intros [[Hp _]|(cl & isNewSearch & p & _ & Hl & _)] H; [done|congruence].
Qed.

Lemma react_one_call e b w' :
  current b -> react e b = Some w' ->
  one_call w'
  /\ (loading (state w') = loading (state (world b)) ->
      page (state w') = page (state (world b))).
Proof.
  intros [Hone Href] Hreact.
  destruct handlers_keep_loading as (L1 & L2 & L3 & L4 & L5 & L6 & L7).
  destruct handlers_keep_page as (P1 & P2 & P3 & P4 & P5 & P6 & P7).
  destruct e; cbn [react] in Hreact;
    try (injection Hreact as <-;
         split; [by apply with_state_one_call | intros _; by cbn]).
  - destruct (canSearch (state (world b))) eqn:Hc; [|done].
    injection Hreact as <-.
    assert (loading (state (world b)) = false) as Hl
      by (unfold canSearch in Hc; by destruct (loading (state (world b)))).
    pose proof (one_call_idle _ Hone Hl) as Hp.
    destruct (loadResorts_start (state (world b)) true
                (with_state (setShouldScrollToResults true) (world b)) Hp)
      as [H1 H2].
    split; [exact H1|]. intros _. exact H2.
  - destruct (load_more_button (state (world b))) eqn:Hc; [|done].
    injection Hreact as <-.
    assert (loading (state (world b)) = false) as Hl
      by (unfold load_more_button in Hc;
          destruct (loading (state (world b))); [|done];
          by rewrite andb_false_r in Hc).
    pose proof (one_call_idle _ Hone Hl) as Hp.
    destruct (loadResorts_start (state (world b)) false (world b) Hp)
      as [H1 H2].
    split; [exact H1|]. intros _. exact H2.
  - destruct (observing b) as [o|] eqn:Ho; [|done].
    injection Hreact as <-.
    destruct Href as (_ & _ & Hobs). destruct (Hobs o Ho) as (Hl & _).
    pose proof (one_call_idle _ Hone Hl) as Hp.
    unfold observer_callback.
    destruct (isIntersecting && hasMore (obs_closure o)); [|done].
    destruct (loadResorts_start (obs_closure o) false (world b) Hp)
      as [H1 H2].
    split; [exact H1|]. intros _. exact H2.
  - by apply (arrival_one_call (world b) i a).
Qed.

Lemma step_current e b b' : current b -> step e b = Some b' -> current b'.
Proof.
  intros Hb Hstep. unfold step in Hstep.
  destruct (react e b) as [w'|] eqn:Hreact; [|done].
  injection Hstep as <-.
  destruct (react_one_call e b w' Hb Hreact) as [Hone Hpage].
  destruct Hb as [_ Href].
  assert (world (commit b w') = w') as Hw
    by (unfold commit; by destruct (_ && _)).
  split; [by rewrite Hw|].
  apply commit_ref_current; [done|].
  intros Hsame. apply Hpage.
  destruct Href as (Hdeps & _).
  apply same_deps_iff in Hdeps as [Hl _].
  apply same_deps_iff in Hsame as [Hl' _]. congruence.
Qed.

Lemma reachable_current today b : reachable today b -> current b.
Proof.
  induction 1 as [|b e b' _ IH Hstep].
  - split; [by left|]. repeat split; done.
  - by apply (step_current e b).
Qed.

(** ** What the page allows while an exchange is outstanding *)

Lemma reachable_after today es b b' :
  reachable today b -> after_events es b = Some b' -> reachable today b'.
Proof.
  revert b. induction es as [|e es IH]; intros b Hb; cbn.
  - by intros [= <-].
  - destruct (step e b) as [b1|] eqn:Hs; [|done].
    apply IH. by apply (reachable_step today b e).
Qed.

Lemma searching_reachable : reachable (lit "2025-01-10") searching.
Proof.
  apply (reachable_after _
           [ClickGps true;
            GpsSuccess {| lat := Fin (465 # 10); lng := Fin (75 # 10) |};
            ClickSearch]
           (initial_browser (lit "2025-01-10"))); [constructor|].
  vm_compute. reflexivity.
Qed.







(** ** Filters and order *)

Lemma num_le_not_lt a b : num_le a b = true -> num_lt b a = false.
Proof.
  destruct a as [x| | |], b as [y| | |]; try done.
  unfold num_le, num_lt. rewrite Qle_bool_iff, Qltb_ge. done.
Qed.

Section FilterSorted.
Context {A : Type} (val : A -> jsnum).
Hypothesis val_ordinary : forall a, ordinary (val a).

Lemma sort_insert_least x l :
  Forall (le_value val x) l -> sort_insert (by_value val) x l = x :: l.
Proof.
  intros H. destruct H as [|z r Hz _]; [done|].
  cbn [sort_insert]. rewrite (after_by_value val val_ordinary).
  by rewrite (num_le_not_lt _ _ Hz).
Qed.

Lemma sort_insert_filter (p : A -> bool) x l :
  StronglySorted (le_value val) l ->
  List.filter p (sort_insert (by_value val) x l)
  = if p x then sort_insert (by_value val) x (List.filter p l)
    else List.filter p l.
Proof.
  induction 1 as [|y l Hs IH Hy]; [cbn; by destruct (p x)|].
  cbn [sort_insert]. rewrite (after_by_value val val_ordinary).
  destruct (num_lt (val y) (val x)) eqn:E.
  - cbn [List.filter]. rewrite IH.
    destruct (p y), (p x); try done.
    cbn [sort_insert]. rewrite (after_by_value val val_ordinary).
    by rewrite E.
  - assert (le_value val x y) as Hxy
      by (apply num_not_lt_le; [apply val_ordinary..|done]).
    assert (Forall (le_value val x) (y :: l)) as Hall.
    { constructor; [done|]. eapply Forall_impl; [exact Hy|].
      intros z Hz. by apply (num_le_trans _ (val y)). }
    change (List.filter p (x :: y :: l))
      with (if p x then x :: List.filter p (y :: l)
            else List.filter p (y :: l)).
    destruct (p x); [|done].
    rewrite sort_insert_least; [done|].
    generalize (y :: l) Hall. clear. intros l Hall.
    induction Hall as [|z r Hz Hall IH]; [constructor|].
    cbn. destruct (p z); [by constructor|done].
Qed.

(** Filtering before sorting and filtering after sorting give the
    same list. *)
Lemma array_sort_filter (p : A -> bool) l :
  array_sort (by_value val) (List.filter p l)
  = List.filter p (array_sort (by_value val) l).
Proof.
  induction l as [|x l IH]; [done|].
  cbn [array_sort foldr List.filter].
  fold (array_sort (by_value val) l).
  rewrite sort_insert_filter by by apply array_sort_sorted.
  destruct (p x); [|done].
  cbn [array_sort foldr]. fold (array_sort (by_value val) (List.filter p l)).
  by rewrite IH.
Qed.
End FilterSorted.

Lemma filter_all {A} (f : A -> bool) (l : list A) :
  (forall a, f a = true) -> List.filter f l = l.
Proof.
  intros H. induction l as [|x l IH]; [done|]. cbn. by rewrite H, IH.
Qed.

(** X1. The filters never reorder: the visible list for any filters is
    the list sorted with all filters off, from which the records that
    fail are removed; with all filters off every accumulated record is
    visible. *)
Theorem filters_only_remove :
  forall (resorts : list Resort) (sortType : SortType) (filters : Filters),
    filteredAndSortedResorts resorts sortType filters
    = List.filter (keeps filters)
        (filteredAndSortedResorts resorts sortType no_filters)
    /\ filteredAndSortedResorts resorts sortType no_filters ≡ₚ resorts
    /\ sublist (filteredAndSortedResorts resorts sortType filters)
         (filteredAndSortedResorts resorts sortType no_filters)
    /\ (length (filteredAndSortedResorts resorts sortType filters)
        <= length resorts)%nat.
Proof.
  intros resorts sortType filters.
  assert (filteredAndSortedResorts resorts sortType no_filters
          = array_sort (compareResorts sortType) resorts) as Hall
    by (unfold filteredAndSortedResorts; by rewrite filter_all).
  assert (filteredAndSortedResorts resorts sortType filters
          = List.filter (keeps filters)
              (filteredAndSortedResorts resorts sortType no_filters)) as Hf.
  { rewrite Hall. unfold filteredAndSortedResorts.
    apply (array_sort_filter (sortValue sortType)
             (sortValue_ordinary sortType)). }
  assert (filteredAndSortedResorts resorts sortType no_filters ≡ₚ resorts)
    as Hp by (rewrite Hall; apply (array_sort_perm (sortValue sortType))).
  split; [done|]. split; [done|]. split.
  - rewrite Hf. apply filter_sublist.
  - rewrite <- (Permutation_length Hp), Hf. apply sublist_length.
    apply filter_sublist.
Qed.

(** ** The toggles *)

(** X2. Toggling a filter flips that toggle and no other; toggling it
    again restores the filters; toggles of different filters commute;
    the count of active filters moves by one; a filter that is switched
    on only removes records; and the count is 0 exactly for the cleared
    filters, for which every record is kept. *)
Theorem filter_toggles :
  (forall key filters,
     handleFilterToggle key (handleFilterToggle key filters) = filters)
  /\ (forall key key' filters,
        filter_value key (handleFilterToggle key filters)
        = negb (filter_value key filters)
        /\ (key <> key' ->
            filter_value key' (handleFilterToggle key filters)
            = filter_value key' filters))
  /\ (forall key key' filters,
        handleFilterToggle key (handleFilterToggle key' filters)
        = handleFilterToggle key' (handleFilterToggle key filters))
  /\ (forall key filters,
        activeFiltersCount (handleFilterToggle key filters)
        = if filter_value key filters
          then (activeFiltersCount filters - 1)%nat
          else S (activeFiltersCount filters))
  /\ (forall key filters resort,
        filter_value key filters = false ->
        keeps (handleFilterToggle key filters) resort = true ->
        keeps filters resort = true)
  /\ (forall filters,
        activeFiltersCount filters = 0%nat <-> filters = clear_filters)
  /\ (forall resort, keeps clear_filters resort = true).
Proof.
  split; [|split; [|split; [|split; [|split; [|split]]]]].
  - by intros [] [[] [] [] []].
  - intros [] [] []; split; done.
  - by intros [] [] [[] [] [] []].
  - intros [] [[] [] [] []]; done.
  - intros key filters resort Hoff. unfold keeps.
    destruct key, filters as [gw fs lo mp]; cbn in *; subst; cbn;
      repeat match goal with
             | |- context [if ?c then _ else _] => destruct c
             end; done.
  - intros [[] [] [] []]; split; done.
  - done.
Qed.

(** ** The card and the filters *)

Lemma Qltb_false_le x y : Qltb x y = false <-> (y <= x)%Q.
Proof. apply Qltb_ge. Qed.

Lemma period_good p :
  Qle_bool (cloud_cover_percent p) 75 && Qeq_bool (snowfall_cm p) 0
  && Qeq_bool (precipitation_mm p) 0 = true ->
  (cloud_cover_percent p <= 75)%Q
  /\ (snowfall_cm p == 0)%Q /\ (precipitation_mm p == 0)%Q.
Proof.
  rewrite !andb_true_iff, Qle_bool_iff, !Qeq_bool_iff. tauto.
Qed.

Lemma fair_slot p :
  (cloud_cover_percent p <= 75)%Q ->
  (snowfall_cm p == 0)%Q -> (precipitation_mm p == 0)%Q ->
  fair (WeatherSlot_icon p) = true.
Proof.
  intros Hc Hs Hp. unfold WeatherSlot_icon, WeatherIcon.
  assert (Qltb 0 (snowfall_cm p) = false) as -> by (apply Qltb_ge; lra).
  assert (Qltb 0 (precipitation_mm p) = false) as -> by (apply Qltb_ge; lra).
  assert (Qltb 75 (cloud_cover_percent p) = false) as ->
    by (by apply Qltb_ge).
  by destruct (Qltb 25 (cloud_cover_percent p)).
Qed.

Lemma fair_slot_inv p :
  measured p -> fair (WeatherSlot_icon p) = true ->
  Qle_bool (cloud_cover_percent p) 75 && Qeq_bool (snowfall_cm p) 0
  && Qeq_bool (precipitation_mm p) 0 = true.
Proof.
  intros [Hs Hp]. unfold WeatherSlot_icon, WeatherIcon.
  destruct (Qltb 0 (snowfall_cm p)) eqn:E1; [done|].
  destruct (Qltb 0 (precipitation_mm p)) eqn:E2; [done|].
  destruct (Qltb 75 (cloud_cover_percent p)) eqn:E3; [done|].
  intros _. apply Qltb_ge in E1, E2, E3.
  rewrite !andb_true_iff, Qle_bool_iff, !Qeq_bool_iff.
  repeat split; [done|lra|lra].
Qed.

Lemma math_round_le (x : Q) (n : Z) :
  (x <= inject_Z n)%Q -> (math_round x <= n)%Z.
Proof.
  intros H. unfold math_round.
  pose proof (Qfloor_le (x + (1 # 2))) as Hf.
  assert (inject_Z (Qfloor (x + (1 # 2))) < inject_Z (n + 1))%Q as Hlt.
  { rewrite inject_Z_plus. change (inject_Z 1) with 1%Q. lra. }
  rewrite <- Zlt_Qlt in Hlt. lia.
Qed.

(** X3. A resort that passes the good-weather filter shows a sun or a
    sun behind a cloud in each of its three weather slots and in its
    summary card; and when no precipitation figure is negative, a resort
    whose three slots show such icons passes the filter. *)
Theorem good_weather_shows_fair_icons :
  (forall resort,
     isGoodWeather resort = true ->
     fair (WeatherSlot_icon (morning (weather resort))) = true
     /\ fair (WeatherSlot_icon (midday (weather resort))) = true
     /\ fair (WeatherSlot_icon (afternoon (weather resort))) = true
     /\ fair (summary_icon resort) = true)
  /\ (forall resort,
        measured (morning (weather resort)) ->
        measured (midday (weather resort)) ->
        measured (afternoon (weather resort)) ->
        fair (WeatherSlot_icon (morning (weather resort))) = true ->
        fair (WeatherSlot_icon (midday (weather resort))) = true ->
        fair (WeatherSlot_icon (afternoon (weather resort))) = true ->
        isGoodWeather resort = true).
Proof.
  split.
  - intros resort H. unfold isGoodWeather in H. cbn [forallb] in H.
    rewrite andb_true_r in H.
    apply andb_true_iff in H as [H1 H].
    apply andb_true_iff in H as [H2 H3].
    apply period_good in H1 as (C1 & S1 & P1).
    apply period_good in H2 as (C2 & S2 & P2).
    apply period_good in H3 as (C3 & S3 & P3).
    repeat split; try by apply fair_slot.
    unfold summary_icon, WeatherIcon.
    assert (Qltb 0 (snowfall_cm (midday (weather resort))) = false) as ->
      by (apply Qltb_ge; lra).
    assert (Qltb 0 (precipitation_mm (midday (weather resort))) = false)
      as -> by (apply Qltb_ge; lra).
    assert (Qltb 75 (inject_Z (avgCloudCover (weather resort))) = false)
      as ->.
    { apply Qltb_ge. change 75%Q with (inject_Z 75). rewrite <- Zle_Qle.
      apply math_round_le. cbn [fold_left length].
      change (inject_Z (Z.of_nat 3)) with 3%Q. change (inject_Z 75) with 75%Q.
      apply Qle_shift_div_r; lra. }
    by destruct (Qltb 25 _).
  - intros resort M1 M2 M3 F1 F2 F3. unfold isGoodWeather. cbn [forallb].
    rewrite (fair_slot_inv _ M1 F1), (fair_slot_inv _ M2 F2),
      (fair_slot_inv _ M3 F3). done.
Qed.

Lemma good_weather_shows_fair_icons_witness :
  fair (summary_icon (resort_with_lifts None)) = true
  /\ isGoodWeather (resort_with_lifts None) = true.
Proof.
  destruct good_weather_shows_fair_icons as [H1 H2].
  assert (isGoodWeather (resort_with_lifts None) = true) as Hg.
  { apply H2; try (split; discriminate); reflexivity. }
  split; [|exact Hg]. by destruct (H1 _ Hg) as (_ & _ & _ & H).
Defined.

(** X4. With the fresh-snow filter on, a resort is kept exactly when it
    passes the other filters and its card shows the fresh-snow badge. *)
Theorem fresh_snow_filter_is_the_badge :
  forall (filters : Filters) (resort : Resort),
    keeps (set_freshSnow true filters) resort
    = keeps (set_freshSnow false filters) resort && fresh_snow_badge resort.
Proof.
  intros filters resort. unfold keeps, fresh_snow_badge, Qltb, set_freshSnow.
  cbn [goodWeather freshSnow liftsOpen minPistes andb].
  destruct (goodWeather filters && negb (isGoodWeather resort)); [done|].
  destruct (Qle_bool (snowfall_prev_24h_cm (weather resort)) 0); cbn.
  - by rewrite andb_false_r.
  - by rewrite andb_true_r.
Qed.

(** ** The numbers the filters compare *)

Lemma inject_N_nonneg (n : N) : (0 <= inject_Z (Z.of_N n))%Q.
Proof. unfold Qle. cbn. lia. Qed.

Lemma numeral_value_nonneg ip fp : (0 <= numeral_value ip fp)%Q.
Proof.
  unfold numeral_value. destruct fp as [|e fp]; [apply inject_N_nonneg|].
  pose proof (inject_N_nonneg (digits_val ip)) as H1.
  pose proof (inject_N_nonneg (digits_val (e :: fp))) as H2.
  assert (0 < inject_Z (10 ^ Z.of_nat (length (e :: fp))))%Q as H3.
  { change 0%Q with (inject_Z 0). rewrite <- Zlt_Qlt.
    apply Z.pow_pos_nonneg; lia. }
  assert (0 <= inject_Z (Z.of_N (digits_val (e :: fp)))
               / inject_Z (10 ^ Z.of_nat (length (e :: fp))))%Q as H4
    by (apply Qle_shift_div_l; [done|lra]).
  lra.
Qed.

(** X5. [getPistesKm] never returns NaN or a negative number: 0 is at
    most its result for every record.  So the comparison of the
    minimum-piste filter is never lost to NaN: the result is not below
    20 exactly when it is at least 20. *)
Theorem pistes_km_is_a_length :
  forall resort : Resort,
    num_le (Fin 0) (getPistesKm resort) = true
    /\ (num_lt (getPistesKm resort) (Fin 20) = false
        <-> num_le (Fin 20) (getPistesKm resort) = true).
Proof.
  intros resort.
  assert (exists q, getPistesKm resort = Fin q /\ (0 <= q)%Q)
    as (q & -> & Hq).
  { rewrite getPistesKm_find.
    destruct (report_pistes_km resort) as [s|]; [|by exists 0%Q].
    destruct (pistes_find s) as [g|] eqn:Hg; [|by exists 0%Q].
    apply pistes_find_first in Hg as (ip & fp & -> & Hf).
    destruct Hf as (pre & rest & _ & _ & Hip & Hfp & _).
    exists (numeral_value ip fp). split; [by apply parseFloat_numeral|].
    apply numeral_value_nonneg. }
  cbn [num_le num_lt]. split; [by apply Qle_bool_iff|].
  unfold Qltb. by rewrite negb_false_iff.
Qed.



(** ** The changes of state an event can make *)

Lemma guarded_page cl isNewSearch g :
  guarded (loadResorts_page cl isNewSearch g)
  = AwaitResorts (page_request cl isNewSearch g)
      (page_continuation cl isNewSearch g).
Proof. reflexivity. Qed.

Lemma page_answer_cases (r : HttpResult ResortsResponse) :
  fetch_failed r
  \/ exists st data,
       r = Responded {| ok := true; statusText := st; body := Some data |}.
Proof. destruct r as [e|[[] st [data|]]]; cbn; eauto. Qed.

Lemma page_continuation_good cl isNewSearch target st data w :
  run (page_continuation cl isNewSearch target
         (Responded {| ok := true; statusText := st; body := Some data |})) w
  = with_state
      (apply_page isNewSearch (if isNewSearch then 1%nat else (page cl + 1)%nat)
         data) w.
Proof. reflexivity. Qed.

(** What starting a call does to the state and to the trace. *)
Lemma loadResorts_run cl isNewSearch w :
  exists v l,
    state (run (loadResorts cl isNewSearch) w) = setLoading v (state w)
    /\ trace (run (loadResorts cl isNewSearch) w) = trace w ++ l
    /\ forallb handled l = true.
Proof.
  destruct (userLocation cl) as [target|] eqn:Hu.
  - rewrite (run_loadResorts_resolved _ _ target _ Hu).
    by eexists true, [_].
  - destruct (must_geocode cl) eqn:Hm.
    + rewrite (run_loadResorts_geocode _ _ _ Hm). by eexists true, [_].
    + rewrite (run_loadResorts_idle _ _ _ Hu Hm). exists false, [].
      cbn. by rewrite app_nil_r.
Qed.

Lemma geocode_log_handled r : forallb handled (geocode_log r) = true.
Proof. by destruct r as [e|[o st [data|]]]. Qed.

(** What the arrival of an answer does to the state and to the trace. *)
Lemma arrival_update w i a w' :
  one_call w -> arrive i a w = Some w' ->
  exists f l,
    update f /\ state w' = f (state w)
    /\ trace w' = trace w ++ l /\ forallb handled l = true.
Proof.
  intros [[Hp _]|(cl & isNewSearch & p & Hp & Hl & Ha)] Harr;
    unfold arrive in Harr; rewrite Hp in Harr.
  { by rewrite lookup_nil in Harr. }
  destruct i as [|i]; [|by rewrite lookup_cons, lookup_nil in Harr].
  cbn in Harr.
  apply loadResorts_awaits in Ha as [(target & ->)|(Hm & ->)].
  - destruct a as [r|r]; [|done]. injection Harr as <-.
    destruct (page_answer_cases r) as [Hf|(st & data & ->)].
    + rewrite (page_continuation_failed _ _ _ _ _ Hf).
      eexists (setLoading false), [_; _]. cbn. rewrite <- app_assoc.
      split; [constructor|done].
    + rewrite page_continuation_good.
      eexists _, []. cbn. rewrite app_nil_r.
      split; [|done]. constructor. destruct isNewSearch; lia.
  - destruct a as [r|r]; [done|]. injection Harr as <-.
    destruct (geocode_result r) as [g|] eqn:Hg.
    + rewrite (geocode_continuation_found _ _ _ _ _ Hm Hg), guarded_page.
      eexists (setUserLocation (Some g)), [_]. cbn.
      split; [constructor|done].
    + rewrite (geocode_continuation_not_found _ _ _ _ Hm Hg).
      destruct (trace_emit_all
                  {| state := state w; pending := []; trace := trace w |}
                  (geocode_log r)) as (Ht & Hs & _).
      exists (setLoading false),
        (geocode_log r
         ++ [Alerted (lit "Could not find location: " ++ locationInput cl)]).
      cbn. rewrite Ht, Hs. cbn. rewrite <- app_assoc.
      split; [constructor|]. split; [done|]. split; [done|].
      rewrite forallb_app, geocode_log_handled. done.
Qed.

Lemma react_update e b w' :
  current b -> react e b = Some w' ->
  exists f l,
    update f /\ state w' = f (state (world b))
    /\ trace w' = trace (world b) ++ l /\ forallb handled l = true.
Proof.
  intros [Hone Href] Hreact.
  destruct e; cbn [react] in Hreact;
    try (injection Hreact as <-; eexists _, []; cbn; rewrite app_nil_r;
         split; [constructor|done]).
  - destruct (canSearch (state (world b))); [|done].
    injection Hreact as <-. unfold handleSearch.
    change (run (set_state (setShouldScrollToResults true);;
                 loadResorts (state (world b)) true) (world b))
      with (run (loadResorts (state (world b)) true)
              (with_state (setShouldScrollToResults true) (world b))).
    destruct (loadResorts_run (state (world b)) true
                (with_state (setShouldScrollToResults true) (world b)))
      as (v & l & -> & -> & Hl).
    exists (fun s => setLoading v (setShouldScrollToResults true s)), l.
    split; [|done]. apply update_scroll_flag. constructor.
  - destruct (load_more_button (state (world b))); [|done].
    injection Hreact as <-. unfold handleLoadMore.
    destruct (loadResorts_run (state (world b)) false (world b))
      as (v & l & -> & -> & Hl).
    exists (setLoading v), l. split; [constructor|done].
  - destruct (observing b) as [o|]; [|done].
    injection Hreact as <-. unfold observer_callback.
    destruct (isIntersecting && hasMore (obs_closure o)).
    + unfold handleLoadMore.
      destruct (loadResorts_run (obs_closure o) false (world b))
        as (v & l & -> & -> & Hl).
      exists (setLoading v), l. split; [constructor|done].
    + eexists _, []. rewrite app_nil_r. split; [apply update_none|done].
  - by apply (arrival_update (world b) i a).
Qed.

Lemma step_world e b b' : step e b = Some b' -> react e b = Some (world b').
Proof.
  unfold step. destruct (react e b) as [w'|]; [|done].
  intros [= <-]. f_equal. unfold commit. by destruct (_ && _).
Qed.

(** A property of the state that every update keeps holds in every
    state the page reaches. *)
Lemma reachable_state today (P : AppState -> Prop) :
  (forall f, update f -> forall s, P s -> P (f s)) ->
  P (initial_state today) ->
  forall b, reachable today b -> P (state (world b)).
Proof.
  intros Hkeep Hinit b Hreach.
  induction Hreach as [|b e b' Hreach IH Hstep]; [done|].
  apply step_world in Hstep.
  destruct (react_update e b (world b') (reachable_current _ _ Hreach) Hstep)
    as (f & l & Hf & -> & _).
  by apply Hkeep.
Qed.


(** ** Every call ends *)



(** ** The location and the search button *)

Lemma located_reachable : reachable (lit "2025-01-10") located.
Proof.
  apply (reachable_after _
           [ClickGps true;
            GpsSuccess {| lat := Fin (465 # 10); lng := Fin (75 # 10) |}]
           (initial_browser (lit "2025-01-10"))); [constructor|].
  vm_compute. reflexivity.
Qed.

Ltac unfold_updates :=
  unfold handleInputChange, handleClear, handleSuggestionClick,
    handleLocationSelect, handleRequestLocation, geolocation_success,
    geolocation_error, scroll_effect, apply_page;
  repeat match goal with
         | |- context [if ?c then _ else _] => destruct c eqn:?
         end.

Lemma gps_mode_kept f :
  update f -> forall s, gps_mode s -> gps_mode (f s).
Proof.
  induction 1 as [| f Hf IH | | | | | | | | | | | | |]; intros s Hs;
    try (apply IH); unfold gps_mode in *; unfold_updates; cbn in *;
    try done; try (intros _; by left); try (intros _; right; by eauto).
  all: intros Hg; try congruence;
    destruct (Hs Hg) as [[? ?]|(? & ? & ?)]; eauto.
Qed.

Lemma reachable_gps_mode today b :
  reachable today b -> gps_mode (state (world b)).
Proof.
  apply (reachable_state today gps_mode); [apply gps_mode_kept|done].
Qed.

Lemma handleSearch_run w :
  handleSearch w
  = run (loadResorts (state w) true)
      (with_state (setShouldScrollToResults true) w).
Proof. reflexivity. Qed.

Lemma canSearch_idle s : canSearch s = true -> loading s = false.
Proof. unfold canSearch. by destruct (loading s). Qed.

(** X8. An enabled search button always starts something, with one
    exception.  In a state the page reaches in which the button is
    enabled, [handleSearch] fetches page 1 for the location that is held
    and the chosen date; without a location it asks the geocoding
    service for the typed text; but when that text is exactly
    "Current Location" it does neither: no request, no alert, and
    [loading] is off again. *)
Theorem enabled_search_acts :
  forall today b,
    reachable today b -> canSearch (state (world b)) = true ->
    match userLocation (state (world b)) with
    | Some target =>
        trace (handleSearch (world b))
        = trace (world b)
          ++ [RequestedResorts
                {| req_lat := lat target; req_lng := lng target;
                   req_date := date (state (world b)); req_page := 1;
                   req_pageSize := 15 |}]
        /\ length (pending (handleSearch (world b))) = 1%nat
        /\ loading (state (handleSearch (world b))) = true
    | None =>
        isUsingGPS (state (world b)) = false
        /\ if str_eqb (locationInput (state (world b))) current_location_label
           then trace (handleSearch (world b)) = trace (world b)
                /\ pending (handleSearch (world b)) = []
                /\ loading (state (handleSearch (world b))) = false
           else trace (handleSearch (world b))
                = trace (world b)
                  ++ [RequestedGeocode (locationInput (state (world b)))]
                /\ length (pending (handleSearch (world b))) = 1%nat
                /\ loading (state (handleSearch (world b))) = true
    end.
Proof.
  intros today b Hreach Hcan.
  destruct (reachable_current today b Hreach) as [Hone _].
  pose proof (one_call_idle _ Hone (canSearch_idle _ Hcan)) as Hpend.
  pose proof (reachable_gps_mode today b Hreach) as Hgps.
  destruct (userLocation (state (world b))) as [target|] eqn:Hu.
  - rewrite (handleSearch_resolved _ target Hu). cbn. by rewrite Hpend.
  - assert (isUsingGPS (state (world b)) = false) as Hg.
    { destruct (isUsingGPS (state (world b))) eqn:Hg; [|done].
      destruct (Hgps Hg) as [[Hs _]|(_ & _ & [y Hy])]; [|congruence].
      unfold canSearch in Hcan. rewrite Hg, Hs in Hcan.
      by destruct (loading (state (world b))), (2 <? _)%nat. }
    split; [done|].
    assert (truthy (locationInput (state (world b))) = true) as Ht.
    { unfold canSearch in Hcan. rewrite Hg in Hcan.
      destruct (locationInput (state (world b))); [|done].
      by destruct (loading (state (world b))). }
    assert (must_geocode (state (world b))
            = negb (str_eqb (locationInput (state (world b)))
                      current_location_label)) as Hm
      by (unfold must_geocode, typed_text; rewrite Hg, Ht, Hu; cbn;
          by rewrite andb_true_r).
    rewrite handleSearch_run.
    destruct (str_eqb (locationInput (state (world b))) current_location_label).
    + by rewrite (run_loadResorts_idle _ _ _ Hu Hm).
    + rewrite (run_loadResorts_geocode _ _ _ Hm). cbn. by rewrite Hpend.
Qed.

Lemma enabled_search_acts_witness :
  trace (handleSearch (world located))
  = [RequestedResorts
       {| req_lat := Fin (465 # 10); req_lng := Fin (75 # 10);
          req_date := lit "2025-01-10"; req_page := 1; req_pageSize := 15 |}]
  /\ length (pending (handleSearch (world located))) = 1%nat
  /\ loading (state (handleSearch (world located))) = true.
Proof.
  exact (enabled_search_acts (lit "2025-01-10") located located_reachable
           eq_refl).
Defined.

Lemma location_kept f :
  update f ->
  forall s, is_Some (userLocation s) -> is_Some (userLocation (f s)).
Proof.
  induction 1 as [| f Hf IH | | | | | | | | | | | | |]; intros s Hs;
    try (apply IH); unfold_updates; cbn; try done; by eauto.
Qed.

(** What the answer to a fetch does to the state. *)
Lemma arrival_page w i r w' :
  one_call w -> arrive i (ResortsAnswer r) w = Some w' ->
  state w' = setLoading false (state w)
  \/ exists isNewSearch n data,
       state w' = apply_page isNewSearch n data (state w).
Proof.
  intros [[Hp _]|(cl & isNewSearch & p & Hp & Hl & Ha)] Harr;
    unfold arrive in Harr; rewrite Hp in Harr.
  { by rewrite lookup_nil in Harr. }
  destruct i as [|i]; [|by rewrite lookup_cons, lookup_nil in Harr].
  cbn in Harr.
  apply loadResorts_awaits in Ha as [(target & ->)|(Hm & ->)]; [|done].
  injection Harr as <-.
  destruct (page_answer_cases r) as [Hf|(st & data & ->)].
  - left. by rewrite (page_continuation_failed _ _ _ _ _ Hf).
  - right. rewrite page_continuation_good. by eexists _, _, _.
Qed.

(** X9. A location that is held is never dropped, and the text typed
    afterwards is not looked at.  No event clears [userLocation]; only a
    click on a suggestion, a GPS position and a geocoding answer put
    another one in its place.  So after a location was resolved, typing
    another place name leaves it as it is, and a search then fetches
    page 1 for the old coordinates without geocoding the new text. *)
Theorem resolved_location_outlives_the_text :
  forall today b e b',
    reachable today b -> step e b = Some b' ->
    (is_Some (userLocation (state (world b)))
     -> is_Some (userLocation (state (world b'))))
    /\ (relocates e = false
        -> userLocation (state (world b')) = userLocation (state (world b)))
    /\ forall v target,
         e = InputChange v ->
         userLocation (state (world b)) = Some target ->
         locationInput (state (world b')) = v
         /\ trace (handleSearch (world b'))
            = trace (world b')
              ++ [RequestedResorts
                    {| req_lat := lat target; req_lng := lng target;
                       req_date := date (state (world b)); req_page := 1;
                       req_pageSize := 15 |}].
Proof.
  intros today b e b' Hreach Hstep.
  pose proof (reachable_current today b Hreach) as Hcur.
  apply step_world in Hstep.
  assert (relocates e = false
          -> userLocation (state (world b')) = userLocation (state (world b)))
    as Hsame.
  { intros Hq. destruct Hcur as [Hone _].
    destruct e; try done; cbn [react] in Hstep;
      try (injection Hstep as <-; cbn; by unfold_updates).
    - destruct (canSearch (state (world b))); [|done].
      injection Hstep as <-. rewrite handleSearch_run.
      by destruct (loadResorts_run (state (world b)) true
                     (with_state (setShouldScrollToResults true) (world b)))
        as (v & l & -> & _).
    - destruct (load_more_button (state (world b))); [|done].
      injection Hstep as <-. unfold handleLoadMore.
      by destruct (loadResorts_run (state (world b)) false (world b))
        as (v & l & -> & _).
    - destruct (observing b) as [o|]; [|done].
      injection Hstep as <-. unfold observer_callback.
      destruct (isIntersecting && hasMore (obs_closure o)); [|done].
      unfold handleLoadMore.
      by destruct (loadResorts_run (obs_closure o) false (world b))
        as (v & l & -> & _).
    - destruct a as [r|r]; [|done].
      by destruct (arrival_page _ _ _ _ Hone Hstep)
        as [->|(isNewSearch & n & data & ->)]. }
  split; [|split; [exact Hsame|]].
  - destruct (react_update e b (world b') Hcur Hstep) as (f & l & Hf & -> & _).
    by apply location_kept.
  - intros v target -> Hu.
    assert (userLocation (state (world b')) = Some target) as Hu'
      by (by rewrite Hsame).
    rewrite (handleSearch_resolved _ target Hu').
    cbn [react] in Hstep. injection Hstep as <-.
    split; [cbn; by unfold_updates|].
    cbn. unfold page_request. do 3 f_equal. by unfold_updates.
Qed.

Lemma resolved_location_outlives_the_text_witness :
  userLocation (state (world retyped))
  = Some {| lat := Fin (465 # 10); lng := Fin (75 # 10) |}
  /\ locationInput (state (world retyped)) = lit "Zermatt"
  /\ trace (handleSearch (world retyped))
     = [RequestedResorts
          {| req_lat := Fin (465 # 10); req_lng := Fin (75 # 10);
             req_date := lit "2025-01-10"; req_page := 1;
             req_pageSize := 15 |}].
Proof.
  assert (step (InputChange (lit "Zermatt")) located = Some retyped) as Hstep
    by (vm_compute; reflexivity).
  assert (userLocation (state (world located))
          = Some {| lat := Fin (465 # 10); lng := Fin (75 # 10) |}) as Hu
    by (vm_compute; reflexivity).
  destruct (resolved_location_outlives_the_text (lit "2025-01-10") located
              (InputChange (lit "Zermatt")) retyped located_reachable Hstep)
    as (_ & H2 & H3).
  split; [by rewrite (H2 eq_refl)|].
  destruct (H3 (lit "Zermatt") _ eq_refl Hu) as [Ha Hb].
  split; [exact Ha|]. rewrite Hb. vm_compute. reflexivity.
Defined.

(** X10. While the GPS is in use the location field shows one of two
    fixed texts: "Locating..." while the position is being taken, and
    then the search button is disabled; "Current Location" once a
    position is held, and then the button is enabled whenever nothing is
    loading. *)
Theorem gps_in_use :
  forall today b,
    reachable today b -> isUsingGPS (state (world b)) = true ->
    (locationStatus (state (world b)) = locating
     /\ locationInput (state (world b)) = lit "Locating..."
     /\ canSearch (state (world b)) = false)
    \/ (locationStatus (state (world b)) = success
        /\ locationInput (state (world b)) = current_location_label
        /\ is_Some (userLocation (state (world b)))
        /\ canSearch (state (world b)) = negb (loading (state (world b)))).
Proof.
  intros today b Hreach Hg.
  destruct (reachable_gps_mode today b Hreach Hg) as [[Hs Hi]|(Hs & Hi & Hu)].
  - left. split; [done|]. split; [done|].
    unfold canSearch. rewrite Hg, Hs. cbn.
    by rewrite andb_false_r, andb_false_r.
  - right. split; [done|]. split; [done|]. split; [done|].
    unfold canSearch. rewrite Hg, Hs. cbn.
    by rewrite andb_false_r, andb_true_r.
Qed.

Lemma gps_in_use_witness :
  locationInput (state (world located)) = current_location_label
  /\ canSearch (state (world located)) = true.
Proof.
  destruct (gps_in_use (lit "2025-01-10") located located_reachable eq_refl)
    as [(H & _)|(_ & H2 & _ & H4)]; [discriminate H|].
  split; [exact H2|exact H4].
Defined.

(** ** Pages and the triggers of load-more *)

Lemma pristine_kept f : update f -> forall s, pristine s -> pristine (f s).
Proof.
  induction 1 as [| f Hf IH | | | | | | | | | | | | |]; intros s Hs;
    try (apply IH); unfold pristine in *; unfold_updates; cbn in *; try done.
Qed.

(** X11. Load-more needs a page that said there is more.  In every
    state the page reaches the page counter is at least 1; before the
    first page was applied there are no results, no total, no sentinel
    element, and [hasMore] is off; and while [hasMore] is off the
    load-more button is not rendered and the intersection observer, if
    it fires, starts nothing. *)
Theorem load_more_needs_more :
  forall today b,
    reachable today b ->
    (1 <= page (state (world b)))%nat
    /\ (searchPerformed (state (world b)) = false ->
        resorts (state (world b)) = [] /\ page (state (world b)) = 1%nat
        /\ hasMore (state (world b)) = false
        /\ totalResorts (state (world b)) = 0%nat
        /\ sentinel (state (world b)) = None)
    /\ (hasMore (state (world b)) = false ->
        react ClickLoadMore b = None
        /\ forall i w', react (Intersect i) b = Some w' -> w' = world b).
Proof.
  intros today b Hreach.
  destruct (reachable_state today pristine pristine_kept
              (conj (le_n 1) (fun _ => conj eq_refl (conj eq_refl
                 (conj eq_refl eq_refl)))) b Hreach) as [Hpage Hfresh].
  split; [done|]. split.
  - intros Hs. destruct (Hfresh Hs) as (? & ? & ? & ?).
    repeat (split; [done|]). unfold sentinel. by rewrite Hs.
  - intros Hm. split.
    + cbn [react]. unfold load_more_button. rewrite Hm.
      by rewrite andb_false_r.
    + intros i w' Hreact. cbn [react] in Hreact.
      destruct (observing b) as [o|] eqn:Ho; [|done].
      injection Hreact as <-.
      destruct (reachable_current today b Hreach) as [_ (_ & _ & Hobs)].
      destruct (Hobs o Ho) as (_ & _ & _ & Hh).
      unfold observer_callback. rewrite Hh, Hm. by rewrite andb_false_r.
Qed.

Lemma load_more_needs_more_witness :
  resorts (state (world searching)) = []
  /\ react ClickLoadMore searching = None.
Proof.
  destruct (load_more_needs_more (lit "2025-01-10") searching
              searching_reachable) as (_ & H2 & H3).
  destruct (H2 eq_refl) as (H & _).
  destruct (H3 eq_refl) as (H' & _).
  split; [exact H|exact H'].
Defined.

(** ** The closure of the observer *)

Lemma first_page_shown_reachable :
  reachable (lit "2025-01-10") first_page_shown.
Proof.
  apply (reachable_after _ first_page_events
           (initial_browser (lit "2025-01-10"))); [constructor|].
  vm_compute. reflexivity.
Qed.

Lemma quiet_react e b w' :
  quiet e = true -> react e b = Some w' ->
  loading (state w') = loading (state (world b))
  /\ hasMore (state w') = hasMore (state (world b))
  /\ sentinel (state w') = sentinel (state (world b)).
Proof.
  intros Hq Hreact.
  destruct e; try done; cbn [react] in Hreact; injection Hreact as <-;
    unfold with_state; cbn [state]; unfold_updates;
    (split; [reflexivity|split; reflexivity]).
Qed.

(** X12. The scroll observer keeps the closure it was created with.
    An event that changes neither [loading] nor [hasMore] nor the list
    that is shown (typing, choosing a suggestion, the GPS, another
    date) leaves the observer as it is; when it fires, it fetches the
    next page for the location and the date of the render that created
    it, while the load-more button fetches for the location and the
    date of the current render. *)
Theorem observer_keeps_its_closure :
  forall today b e b',
    reachable today b -> quiet e = true -> step e b = Some b' ->
    observer b' = observer b
    /\ (forall o target,
          observing b' = Some o -> hasMore (obs_closure o) = true ->
          userLocation (obs_closure o) = Some target ->
          exists w',
            react (Intersect true) b' = Some w'
            /\ trace w'
               = trace (world b')
                 ++ [RequestedResorts
                       {| req_lat := lat target; req_lng := lng target;
                          req_date := date (obs_closure o);
                          req_page := page (obs_closure o) + 1;
                          req_pageSize := 15 |}])
    /\ (forall target,
          load_more_button (state (world b')) = true ->
          userLocation (state (world b')) = Some target ->
          exists w',
            react ClickLoadMore b' = Some w'
            /\ trace w'
               = trace (world b')
                 ++ [RequestedResorts
                       {| req_lat := lat target; req_lng := lng target;
                          req_date := date (state (world b'));
                          req_page := page (state (world b')) + 1;
                          req_pageSize := 15 |}]).
Proof.
  intros today b e b' Hreach Hq Hstep.
  destruct (reachable_current today b Hreach) as [_ (Hdeps & _)].
  split; [|split].
  - unfold step in Hstep. destruct (react e b) as [w'|] eqn:Hreact; [|done].
    injection Hstep as <-.
    destruct (quiet_react e b w' Hq Hreact) as (Hl & Hm & Hs).
    unfold commit.
    assert (same_deps (memo b) (state w') = true) as ->.
    { apply same_deps_iff. apply same_deps_iff in Hdeps as [? ?].
      split; congruence. }
    by rewrite Hs, bool_decide_eq_true_2.
  - intros o target Ho Hm Hu. cbn [react]. rewrite Ho.
    eexists. split; [reflexivity|].
    unfold observer_callback. rewrite Hm. cbn [andb].
    unfold handleLoadMore.
    by rewrite (run_loadResorts_resolved _ _ target _ Hu).
  - intros target Hb Hu. cbn [react]. rewrite Hb.
    eexists. split; [reflexivity|].
    unfold handleLoadMore.
    by rewrite (run_loadResorts_resolved _ _ target _ Hu).
Qed.

Lemma observer_keeps_its_closure_witness :
  date (state (world date_changed)) = lit "2025-01-12"
  /\ (exists w',
        react (Intersect true) date_changed = Some w'
        /\ trace w'
           = trace (world date_changed)
             ++ [RequestedResorts
                   {| req_lat := Fin (465 # 10); req_lng := Fin (75 # 10);
                      req_date := lit "2025-01-10"; req_page := 2;
                      req_pageSize := 15 |}])
  /\ (exists w',
        react ClickLoadMore date_changed = Some w'
        /\ trace w'
           = trace (world date_changed)
             ++ [RequestedResorts
                   {| req_lat := Fin (465 # 10); req_lng := Fin (75 # 10);
                      req_date := lit "2025-01-12"; req_page := 2;
                      req_pageSize := 15 |}]).
Proof.
  destruct (observer_keeps_its_closure (lit "2025-01-10") first_page_shown
              (DateChange (lit "2025-01-12")) date_changed
              first_page_shown_reachable eq_refl)
    as (_ & H2 & H3).
  { vm_compute. reflexivity. }
  split; [reflexivity|]. split.
  - eassert (observing date_changed = Some _) as Ho
      by (vm_compute; reflexivity).
    exact (H2 _ {| lat := Fin (465 # 10); lng := Fin (75 # 10) |} Ho
             eq_refl eq_refl).
  - exact (H3 {| lat := Fin (465 # 10); lng := Fin (75 # 10) |}
             eq_refl eq_refl).
Defined.

(** ** When the observer is armed *)

Lemma commit_armed b w' : ref_current b -> armed b -> armed (commit b w').
Proof.
  intros (Hdeps & _ & _) Harmed.
  apply same_deps_iff in Hdeps as [Hl Hh].
  unfold commit, armed.
  destruct (same_deps (memo b) (state w')) eqn:Hsame; cbn [andb].
  - apply same_deps_iff in Hsame as [Hl' Hh'].
    case_bool_decide as Hnode; cbn [world].
    + intros Hload n Hn. unfold observing. cbn [observer].
      apply (Harmed ltac:(congruence) n). congruence.
    + intros Hload n Hn. rewrite Hn. unfold observing. cbn [observer].
      unfold lastResortElementRef.
      assert (loading (memo b) = false) as -> by congruence.
      by eexists.
  - cbn [world]. intros Hload n Hn. rewrite Hn.
    unfold observing. cbn [observer]. unfold lastResortElementRef.
    rewrite Hload. by eexists.
Qed.

Lemma reachable_armed today b : reachable today b -> armed b.
Proof.
  induction 1 as [|b e b' Hreach IH Hstep]; [done|].
  unfold step in Hstep. destruct (react e b) as [w'|]; [|done].
  injection Hstep as <-.
  apply commit_armed; [|done].
  by destruct (reachable_current _ _ Hreach).
Qed.

Lemma sentinel_None s :
  sentinel s = None <->
  searchPerformed s = false
  \/ (length (filteredAndSortedResorts (resorts s) (sortType s) (filters s))
      < 2)%nat.
Proof.
  unfold sentinel. destruct (searchPerformed s); [|by split; [left|]].
  set (visible := filteredAndSortedResorts _ _ _).
  destruct (1 <? length visible)%nat eqn:Hlen.
  - apply Nat.ltb_lt in Hlen.
    destruct (lookup_lt_is_Some_2 visible (length visible - 2)%nat)
      as [x Hx]; [lia|].
    rewrite Hx. cbn. split; [done|]. intros [?|?]; [done|lia].
  - apply Nat.ltb_ge in Hlen. split; [right; lia|done].
Qed.

(** X13. Infinite scroll is armed exactly when nothing is loading and
    at least two cards are shown.  In every state the page reaches, the
    sentinel element exists exactly when the results are shown and the
    visible list has at least two records; the observer observes an
    element exactly when [loading] is off and the sentinel exists, and
    then it observes the sentinel with the current page counter and the
    current [hasMore] in its closure, so that on intersection it calls
    [loadResorts(false)] if there is more and does nothing otherwise;
    without a sentinel the observer cannot fire. *)
Theorem scroll_is_armed :
  forall today b,
    reachable today b ->
    (sentinel (state (world b)) = None <->
     searchPerformed (state (world b)) = false
     \/ (length (filteredAndSortedResorts (resorts (state (world b)))
                   (sortType (state (world b))) (filters (state (world b))))
         < 2)%nat)
    /\ (is_Some (observing b) <->
        loading (state (world b)) = false
        /\ is_Some (sentinel (state (world b))))
    /\ (forall o,
          observing b = Some o ->
          obs_target o = sentinel (state (world b))
          /\ page (obs_closure o) = page (state (world b))
          /\ hasMore (obs_closure o) = hasMore (state (world b))
          /\ react (Intersect true) b
             = Some (if hasMore (state (world b))
                     then handleLoadMore (obs_closure o) (world b)
                     else world b))
    /\ (sentinel (state (world b)) = None ->
        forall i, react (Intersect i) b = None).
Proof.
  intros today b Hreach.
  destruct (reachable_current today b Hreach) as [_ (_ & _ & Hobs)].
  pose proof (reachable_armed today b Hreach) as Harmed.
  assert (is_Some (observing b) <->
          loading (state (world b)) = false
          /\ is_Some (sentinel (state (world b)))) as Hiff.
  { split.
    - intros [o Ho]. destruct (Hobs o Ho) as (Hl & Ht & _).
      split; [done|]. rewrite <- Ht.
      by apply observing_Some in Ho as [_ [n ->]].
    - intros [Hl [n Hn]]. by destruct (Harmed Hl n Hn) as [o ->]. }
  split; [apply sentinel_None|]. split; [exact Hiff|]. split.
  - intros o Ho. destruct (Hobs o Ho) as (_ & Ht & Hp & Hh).
    repeat (split; [done|]). cbn [react]. rewrite Ho.
    unfold observer_callback. rewrite Hh. cbn [andb]. done.
  - intros Hs i. cbn [react].
    destruct (observing b) as [o|] eqn:Ho; [|done].
    destruct (proj1 Hiff ltac:(by eexists)) as [_ [n Hn]]. congruence.
Qed.

Lemma scroll_is_armed_witness :
  is_Some (sentinel (state (world first_page_shown)))
  /\ is_Some (observing first_page_shown)
  /\ observing searching = None.
Proof.
  destruct (scroll_is_armed (lit "2025-01-10") first_page_shown
              first_page_shown_reachable) as (_ & H2 & _).
  destruct (scroll_is_armed (lit "2025-01-10") searching
              searching_reachable) as (_ & _ & _ & H4).
  assert (is_Some (sentinel (state (world first_page_shown)))) as Hs
    by (vm_compute; by eexists).
  split; [exact Hs|]. split; [apply H2; split; [reflexivity|exact Hs]|].
  specialize (H4 eq_refl true). cbn [react] in H4.
  by destruct (observing searching).
Defined.

(** ** Durations *)






Lemma Qfloor_unique x z :
  (inject_Z z <= x)%Q -> (x < inject_Z (z + 1))%Q -> Qfloor x = z.
Proof.
  intros H1 H2.
  pose proof (Qfloor_le x) as H3. pose proof (Qlt_floor x) as H4.
  assert (z < Qfloor x + 1)%Z by (rewrite Zlt_Qlt; lra).
  assert (Qfloor x < z + 1)%Z by (rewrite Zlt_Qlt; lra).
  lia.
Qed.





(** ** Suggestions fail soft *)

(** X15. The place search never fails and the dropdown follows its
    result.  [searchLocations] resolves for every answer, with the
    places of a 2xx answer that parses and with an empty list otherwise,
    and asks nothing for a query shorter than 3.  The timer callback of
    [InputSection] never rejects; for a text longer than 2 that is not
    "Current Location", outside the GPS mode, it asks once for that
    text, stores the places, shows the dropdown exactly when there are
    some and ends with the spinner off; otherwise it asks nothing,
    empties the suggestions and hides the dropdown. *)
Theorem suggestions_fail_soft :
  (forall query net s,
     outcome (settle (searchLocations query) net s [] [])
     = inl (if (length query <? 3)%nat then [] else places (net query))
     /\ asked (settle (searchLocations query) net s [] [])
        = (if (length query <? 3)%nat then [] else [query])
     /\ final (settle (searchLocations query) net s [] []) = s)
  /\ forall locationInput isUsingGPS net s,
       let done :=
         settle (suggestions_timer locationInput isUsingGPS) net s [] [] in
       outcome done = inl tt
       /\ showSuggestions (final done)
          = negb (bool_decide (suggestions (final done) = []))
       /\ if (2 <? length locationInput)%nat && negb isUsingGPS
             && negb (str_eqb locationInput current_location_label)
          then asked done = [locationInput]
               /\ suggestions (final done) = places (net locationInput)
               /\ isSearchingLocation (final done) = false
          else asked done = [] /\ suggestions (final done) = []
               /\ isSearchingLocation (final done) = isSearchingLocation s.
Proof.
  split.
  - intros query net s. unfold searchLocations.
    destruct (length query <? 3)%nat; [done|]. cbn.
    by destruct (net query) as [e|[[] st [data|]]].
  - intros locationInput isUsingGPS net s. cbv zeta.
    unfold suggestions_timer.
    destruct ((2 <? length locationInput)%nat && negb isUsingGPS
              && negb (str_eqb locationInput current_location_label)) eqn:Hg;
      [|done].
    assert ((length locationInput <? 3)%nat = false) as Hlen.
    { apply Nat.ltb_ge. destruct (2 <? length locationInput)%nat eqn:H2;
        [apply Nat.ltb_lt in H2; lia|done]. }
    unfold searchLocations. rewrite Hlen. cbn.
    destruct (net locationInput) as [e|[[] st [[|hit data]|]]]; done.
Qed.
